(** * go-async: the Result type, [Do] and [Stream]

    A shallow embedding of [Async.go] and of the [_Result] constructors.
    The goroutine started by [Do] and by [Stream] is modelled by the sequence
    of statements it executes that are visible from outside it (calls of the
    user function, channel sends, the test of the continuation flag, the
    deferred [close], an escaping panic); a second layer runs such a
    goroutine against a Go channel and a consumer under a schedule. *)

From Stdlib Require Import List Bool Arith Lia String.
Import ListNotations.

Set Implicit Arguments.

(** ** Go values *)

(** The zero value of a Go type, written [*new(T)] in the source. *)
Class GoZero (T : Type) : Type := zero_value : T.

#[export] Instance GoZero_nat : GoZero nat := 0.
#[export] Instance GoZero_string : GoZero string := EmptyString.

(** How a call of a user supplied Go function ends: it returns, it panics,
    it ends its goroutine with [runtime.Goexit], or it never returns. *)
Inductive outcome (A : Type) : Type :=
| Returns (a : A)
| Panics
| Diverges
| Goexits.

Arguments Panics {A}.
Arguments Diverges {A}.
Arguments Goexits {A}.

(** How far a goroutine got: it is gone without a panic (its function
    returned, or a call ended it with [runtime.Goexit]), it died of a panic,
    or it is still running (inside a call that does not return, or in a loop
    that has not finished yet). *)
Inductive status : Type :=
| Exited
| Crashed
| Running.

Section Model.

Variable T : Type.
Context {T_zero : GoZero T}.
(** Non-nil error values; Go's [error] is one of them or [nil]. *)
Variable Err : Type.
(** [context.Context], opaque. *)
Variable Ctx : Type.
(** What the closure [step] captures and updates between its calls. *)
Variable St : Type.

Definition error : Type := option Err.

(** [type _Result[T any] struct { Value T; Error error }] *)
Record _Result : Type := { Value : T; Error : error }.

(** [func success[T any](val T) _Result[T]] *)
Definition success (val : T) : _Result :=
  {| Value := val; Error := None |}.

(** [func fail[T any](err error) _Result[T]] *)
Definition fail (err : error) : _Result :=
  {| Value := zero_value; Error := err |}.

(** The statements of a goroutine that matter outside it, in the order
    in which they are executed. *)
Inductive event : Type :=
| EvCall (ctx : Ctx)      (* action(ctx), step(ctx) *)
| EvSend (x : _Result)    (* r <- x *)
| EvTest (next : bool)    (* if !next *)
| EvClose                 (* close(r) *)
| EvPanic.                (* an unrecovered panic leaves the goroutine *)

Definition run : Type := (list event * status)%type.

(** [defer close(r)]: the deferred call runs when the function body
    returns, when [runtime.Goexit] ends the goroutine, and also while a
    panic unwinds it; it has not run while the body is still executing.
    Nothing in the body recovers, so a panic goes on after the deferred
    call. *)
Definition defer_close (body : run) : run :=
  match snd body with
  | Exited => (fst body ++ [EvClose], Exited)
  | Crashed => (fst body ++ [EvClose; EvPanic], Crashed)
  | Running => body
  end.

(** The [if err != nil { r <- fail[T](err) } else { r <- success[T](result) }]
    that both goroutines contain. *)
Definition send_result (result : T) (err : error) : event :=
  match err with
  | Some _ => EvSend (fail err)
  | None => EvSend (success result)
  end.

(** The goroutine of [Do]. *)
Definition Do_body (ctx : Ctx) (action : Ctx -> outcome (T * error)) : run :=
  match action ctx with
  | Returns (result, err) => ([EvCall ctx; send_result result err], Exited)
  | Panics => ([EvCall ctx], Crashed)
  | Diverges => ([EvCall ctx], Running)
  | Goexits => ([EvCall ctx], Exited)
  end.

Definition Do (ctx : Ctx) (action : Ctx -> outcome (T * error)) : run :=
  defer_close (Do_body ctx action).

(** The [for] loop of [Stream]; [fuel] bounds the number of iterations
    that are observed, and a loop that has not ended by then is
    [Running]. *)
Fixpoint Stream_loop (fuel : nat) (ctx : Ctx)
    (step : Ctx -> St -> outcome (T * error * bool * St)) (s : St) : run :=
  match fuel with
  | O => ([], Running)
  | S fuel' =>
      match step ctx s with
      | Returns (result, err, next, s') =>
          if negb next
          then ([EvCall ctx; send_result result err; EvTest next], Exited)
          else
            let rest := Stream_loop fuel' ctx step s' in
            (EvCall ctx :: send_result result err :: EvTest next :: fst rest,
             snd rest)
      | Panics => ([EvCall ctx], Crashed)
      | Diverges => ([EvCall ctx], Running)
      | Goexits => ([EvCall ctx], Exited)
      end
  end.

(** The goroutine of [Stream]. *)
Definition Stream (fuel : nat) (ctx : Ctx)
    (step : Ctx -> St -> outcome (T * error * bool * St)) (s : St) : run :=
  defer_close (Stream_loop fuel ctx step s).

(** *** What a run shows *)

(** The Results sent into the conduit, in order. *)
Fixpoint delivered (tr : list event) : list _Result :=
  match tr with
  | [] => []
  | EvSend x :: tr' => x :: delivered tr'
  | _ :: tr' => delivered tr'
  end.

(** How many times the user function was called. *)
Fixpoint calls (tr : list event) : nat :=
  match tr with
  | [] => 0
  | EvCall _ :: tr' => S (calls tr')
  | _ :: tr' => calls tr'
  end.

Definition is_close (e : event) : bool :=
  match e with EvClose => true | _ => false end.

(** [close(r)] was executed. *)
Definition closes (tr : list event) : bool := existsb is_close tr.

(** What happens to the conduit: sends, the close, and a panic. *)
Definition on_conduit (e : event) : bool :=
  match e with
  | EvSend _ | EvClose | EvPanic => true
  | EvCall _ | EvTest _ => false
  end.

Definition conduit_ops (tr : list event) : list event := filter on_conduit tr.

(** *** The conduit and its reader *)

(** A Go channel: its capacity, what is buffered, whether it was closed. *)
Record chan : Type := { cap : nat; buf : list _Result; closed : bool }.

(** [make(Result[T])] and [make(Sequence[T])] are called without a size:
    the channel is unbuffered. *)
Definition conduit_cap : nat := 0.

Definition make_chan (n : nat) : chan :=
  {| cap := n; buf := []; closed := false |}.

(** The goroutine with what it has still to execute, its channel, what
    the receives of the reader returned so far ([None] for a receive
    from the closed and empty channel), and whether a panic has ended the
    process. *)
Record system : Type := {
  todo : list event;
  ends : status;
  r : chan;
  got : list (option _Result);
  dead : bool
}.

(** [r := make(...); go func() { ... }()] *)
Definition spawn (n : nat) (g : run) : system :=
  {| todo := fst g; ends := snd g; r := make_chan n; got := []; dead := false |}.

Inductive turn : Type := Producer | Consumer.

(** The goroutine executes its next statement, if it can do so alone. A
    send needs room in the buffer (the hand-off to a waiting reader is the
    reader's move below); sending on or closing a closed channel
    panics. *)
Definition producer_step (s : system) : option system :=
  match todo s with
  | [] => None
  | EvCall _ :: k | EvTest _ :: k =>
      Some {| todo := k; ends := ends s; r := r s; got := got s; dead := dead s |}
  | EvSend x :: k =>
      if closed (r s)
      then Some {| todo := []; ends := Crashed; r := r s; got := got s; dead := true |}
      else if List.length (buf (r s)) <? cap (r s)
      then Some {| todo := k; ends := ends s;
                   r := {| cap := cap (r s); buf := buf (r s) ++ [x]; closed := false |};
                   got := got s; dead := dead s |}
      else None
  | EvClose :: k =>
      if closed (r s)
      then Some {| todo := []; ends := Crashed; r := r s; got := got s; dead := true |}
      else Some {| todo := k; ends := ends s;
                   r := {| cap := cap (r s); buf := buf (r s); closed := true |};
                   got := got s; dead := dead s |}
  | EvPanic :: _ =>
      Some {| todo := []; ends := Crashed; r := r s; got := got s; dead := true |}
  end.

(** The reader executes one receive [<-r], if it can: from the buffer,
    from the closed channel, or directly from the goroutine that stands
    at a send. *)
Definition consumer_step (s : system) : option system :=
  match buf (r s) with
  | x :: b =>
      Some {| todo := todo s; ends := ends s;
              r := {| cap := cap (r s); buf := b; closed := closed (r s) |};
              got := got s ++ [Some x]; dead := dead s |}
  | [] =>
      if closed (r s)
      then Some {| todo := todo s; ends := ends s; r := r s;
                   got := got s ++ [None]; dead := dead s |}
      else
        match todo s with
        | EvSend x :: k =>
            Some {| todo := k; ends := ends s; r := r s;
                    got := got s ++ [Some x]; dead := dead s |}
        | _ => None
        end
  end.

(** One turn of the scheduler; a party that cannot move stays where it
    is, and nothing moves once the process is dead. *)
Definition sys_step (s : system) (t : turn) : system :=
  if dead s then s
  else
    match (match t with
           | Producer => producer_step s
           | Consumer => consumer_step s
           end) with
    | Some s' => s'
    | None => s
    end.

Definition sys_run (sched : list turn) (s : system) : system :=
  fold_left sys_step sched s.

(** The goroutine has come to its end. *)
Definition finished (s : system) : bool :=
  match todo s, ends s with
  | [], Exited | [], Crashed => true
  | _, _ => false
  end.

(** The reader never reads: the schedule has no turn of the reader. *)
Definition reader_absent (sched : list turn) : bool :=
  forallb (fun t => match t with Producer => true | Consumer => false end) sched.

(** The four states that the system of a [Do] whose action returned
    passes through, [x] being the Result it sends: before the call, at the
    send, at the close, and at the end with [m] receives after the
    close. *)
Definition Do_state (ctx : Ctx) (x : _Result) (n m : nat) : system :=
  match n with
  | 0 => {| todo := [EvCall ctx; EvSend x; EvClose]; ends := Exited;
            r := make_chan conduit_cap; got := []; dead := false |}
  | 1 => {| todo := [EvSend x; EvClose]; ends := Exited;
            r := make_chan conduit_cap; got := []; dead := false |}
  | 2 => {| todo := [EvClose]; ends := Exited;
            r := make_chan conduit_cap; got := [Some x]; dead := false |}
  | _ => {| todo := []; ends := Exited;
            r := {| cap := conduit_cap; buf := []; closed := true |};
            got := Some x :: repeat None m; dead := false |}
  end.

(** The states that the system of a [Do] whose action panicked passes
    through: before the call, at the deferred close, at the panic with [m]
    receives after the close, and dead. *)
Definition Do_panic_state (ctx : Ctx) (n m : nat) : system :=
  match n with
  | 0 => {| todo := [EvCall ctx; EvClose; EvPanic]; ends := Crashed;
            r := make_chan conduit_cap; got := []; dead := false |}
  | 1 => {| todo := [EvClose; EvPanic]; ends := Crashed;
            r := make_chan conduit_cap; got := []; dead := false |}
  | 2 => {| todo := [EvPanic]; ends := Crashed;
            r := {| cap := conduit_cap; buf := []; closed := true |};
            got := repeat None m; dead := false |}
  | _ => {| todo := []; ends := Crashed;
            r := {| cap := conduit_cap; buf := []; closed := true |};
            got := repeat None m; dead := true |}
  end.

(** The shape of the statements that the goroutine of [Stream] executes. *)
Inductive stream_shape (ctx : Ctx) : list event -> status -> Prop :=
| shape_going : stream_shape ctx [] Running
| shape_stop : forall x,
    stream_shape ctx [EvCall ctx; EvSend x; EvTest false; EvClose] Exited
| shape_more : forall x tr st,
    stream_shape ctx tr st ->
    stream_shape ctx (EvCall ctx :: EvSend x :: EvTest true :: tr) st
| shape_panic : stream_shape ctx [EvCall ctx; EvClose; EvPanic] Crashed
| shape_stuck : stream_shape ctx [EvCall ctx] Running
| shape_goexit : stream_shape ctx [EvCall ctx; EvClose] Exited.

(** The invariant of a Result: with the failure indicator set the value
    is the zero value, without it the value is the one supplied. *)
Definition one_active (supplied : T) (x : _Result) : Prop :=
  match Error x with
  | Some _ => Value x = zero_value
  | None => Value x = supplied
  end.

(** *** What the calls of [step] return *)

(** [returns_in_turn ctx step s outs s']: called again and again with
    [ctx], starting with what it captured being [s], [step] returns the
    tuples [outs], one per call, and leaves [s']. *)
Inductive returns_in_turn (ctx : Ctx)
    (step : Ctx -> St -> outcome (T * error * bool * St))
  : St -> list (T * error * bool) -> St -> Prop :=
| rit_nil : forall s, returns_in_turn ctx step s [] s
| rit_cons : forall s result err next s1 outs s',
    step ctx s = Returns (result, err, next, s1) ->
    returns_in_turn ctx step s1 outs s' ->
    returns_in_turn ctx step s ((result, err, next) :: outs) s'.

(** The statements of one iteration of the loop of [Stream] in which
    [step] returned [out]. *)
Definition iteration (ctx : Ctx) (out : T * error * bool) : list event :=
  let '(result, err, next) := out in
  [EvCall ctx; send_result result err; EvTest next].

(** The Result that stands for a returned pair. *)
Definition result_of (out : T * error * bool) : _Result :=
  let '(result, err, _) := out in
  match err with
  | Some _ => fail err
  | None => success result
  end.

Definition continue_flag (out : T * error * bool) : bool := snd out.

(** The log of what the calls of [step] in the loop of [Stream] ended
    with, call by call. *)
Fixpoint call_log (fuel : nat) (ctx : Ctx)
    (step : Ctx -> St -> outcome (T * error * bool * St)) (s : St)
  : list (outcome (T * error * bool)) :=
  match fuel with
  | O => []
  | S fuel' =>
      match step ctx s with
      | Returns (result, err, next, s') =>
          Returns (result, err, next) ::
          (if negb next then [] else call_log fuel' ctx step s')
      | Panics => [Panics]
      | Diverges => [Diverges]
      | Goexits => [Goexits]
      end
  end.

(** The Results that stand for the calls of a log that returned, in the
    order of the calls. *)
Fixpoint returned_Results (log : list (outcome (T * error * bool)))
  : list _Result :=
  match log with
  | [] => []
  | Returns out :: log' => result_of out :: returned_Results log'
  | _ :: log' => returned_Results log'
  end.

(** *** The goroutine and its reader along a schedule *)

(** The Results among what the receives of the reader returned. *)
Fixpoint received (g : list (option _Result)) : list _Result :=
  match g with
  | [] => []
  | Some x :: g' => x :: received g'
  | None :: g' => received g'
  end.

(** What may still be executed once the channel is closed: nothing, or
    the panic that leaves the goroutine. *)
Definition after_close (k : list event) : bool :=
  match k with
  | [] | [EvPanic] => true
  | _ => false
  end.

(** [close_last k]: [k] closes the channel at most once, after all its
    sends, calls and tests, and panics only after the close. *)
Fixpoint close_last (k : list event) : bool :=
  match k with
  | [] => true
  | EvCall _ :: k' | EvSend _ :: k' | EvTest _ :: k' => close_last k'
  | EvClose :: k' => after_close k'
  | EvPanic :: _ => false
  end.

(** The statement that comes first gives the goroutine a call in hand or
    not: at a call or a test every call made so far has had its Result
    taken. *)
Definition slack (k : list event) : nat :=
  match k with
  | EvCall _ :: _ | EvTest _ :: _ => 0
  | _ => 1
  end.

(** [call_then_send k]: in [k] a call is never directly followed by
    another call or by a test. *)
Fixpoint call_then_send (k : list event) : bool :=
  match k with
  | [] => true
  | e :: k' =>
      match e, k' with
      | EvCall _, EvCall _ :: _ | EvCall _, EvTest _ :: _ => false
      | _, _ => call_then_send k'
      end
  end.

(** [follows g pre sys]: the system [sys] is the goroutine with the run
    [g] on the unbuffered conduit after it has executed the statements
    [pre]. *)
Record follows (g : run) (pre : list event) (sys : system) : Prop := {
  fo_split : fst g = pre ++ todo sys;
  fo_got : received (got sys) = delivered pre;
  fo_buf : buf (r sys) = [];
  fo_cap : cap (r sys) = conduit_cap;
  fo_closed : closed (r sys) = closes pre;
  fo_order : (if closed (r sys) then after_close (todo sys)
              else close_last (todo sys)) = true;
  fo_none : In None (got sys) -> closed (r sys) = true;
  fo_calls : calls pre <= List.length (delivered pre) + slack (todo sys);
  fo_pairs : call_then_send (todo sys) = true;
  fo_dead : dead sys = true -> In EvPanic pre /\ closed (r sys) = true;
  fo_ends : dead sys = false -> ends sys = snd g
}.

(** The turns of a reader that takes every Result as soon as it is
    offered, for a goroutine that runs [n] iterations and then closes:
    call, receive, test, [n] times, and the close. *)
Definition draining (n : nat) : list turn :=
  List.concat (repeat [Producer; Consumer; Producer] n) ++ [Producer].

End Model.

Arguments success {T Err} val.
Arguments EvCall {T Err Ctx} ctx.
Arguments EvSend {T Err Ctx} x.
Arguments EvTest {T Err Ctx} next.
Arguments EvClose {T Err Ctx}.
Arguments EvPanic {T Err Ctx}.
Arguments make_chan {T Err} n.
Arguments send_result {T T_zero Err Ctx} result err.
Arguments Do_panic_state {T Err Ctx} ctx n m.
Arguments result_of {T T_zero Err} out.
Arguments continue_flag {T Err} out.
Arguments iteration {T T_zero Err Ctx} ctx out.
Arguments returns_in_turn {T Err Ctx St} ctx step _ _ _.
Arguments received {T Err} g.
Arguments returned_Results {T T_zero Err} log.
Arguments after_close {T Err Ctx} k.
Arguments close_last {T Err Ctx} k.
Arguments slack {T Err Ctx} k.
Arguments call_then_send {T Err Ctx} k.

(** ** Programs of the documentation *)

(** [Do(ctx, func(ctx) (string, error) { return "hi", nil })] *)
Definition say_hi (_ : unit) : outcome (string * error string) :=
  Returns ("hi"%string, None).

(** An action that fails, returning a value next to its error. *)
Definition fails_with_value (_ : unit) : outcome (nat * error string) :=
  Returns (7, Some "boom"%string).

(** [v++; return v, nil, v < 3] with [v] captured by the closure. *)
Definition count_to_3 (_ : unit) (v : nat) : outcome (nat * error string * bool * nat) :=
  let v := S v in
  Returns (v, None, v <? 3, v).

(** As [count_to_3], but the second call reports an error and asks to go
    on. *)
Definition error_on_second (_ : unit) (v : nat)
  : outcome (nat * error string * bool * nat) :=
  let v := S v in
  Returns (v, (if v =? 2 then Some "bad"%string else None), v <? 3, v).

(** A user function that panics when it is called. *)
Definition panicking_action (_ : unit) : outcome (nat * error string) := Panics.

Definition panicking_step (_ : unit) (_ : nat)
  : outcome (nat * error string * bool * nat) := Panics.

(** A user function that calls [runtime.Goexit]. *)
Definition goexit_step (_ : unit) (_ : nat)
  : outcome (nat * error string * bool * nat) := Goexits.

(** A step that works once and panics on its second call. *)
Definition panics_on_second (_ : unit) (v : nat)
  : outcome (nat * error string * bool * nat) :=
  match v with
  | O => Returns (1, None, true, 1)
  | _ => Panics
  end.

(** [v++; return v, nil, true]: a step that never asks to stop. *)
Definition counts_forever (_ : unit) (v : nat)
  : outcome (nat * error string * bool * nat) :=
  let v := S v in
  Returns (v, None, true, v).

(** An action that never returns, and a step that returns once and then
    never again. *)
Definition hanging_action (_ : unit) : outcome (nat * error string) := Diverges.

Definition hangs_on_second (_ : unit) (v : nat)
  : outcome (nat * error string * bool * nat) :=
  match v with
  | O => Returns (1, None, true, 1)
  | _ => Diverges
  end.

(** An action and a step that do not look at their context; a context is
    here the flag that says whether it was cancelled. *)
Definition ignores_ctx (_ : bool) : outcome (nat * error string) :=
  Returns (42, None).

Definition counts_ignoring_ctx (_ : bool) (v : nat)
  : outcome (nat * error string * bool * nat) :=
  let v := S v in
  Returns (v, None, v <? 3, v).

(** ** Properties *)

Section Properties.

Variable T : Type.
Context {T_zero : GoZero T}.
Variables Err Ctx St : Type.

Local Abbreviation ev := (event T Err Ctx).
Local Abbreviation step_t := (Ctx -> St -> outcome (T * error Err * bool * St)).

(** *** Reading runs *)

Lemma send_result_is_send (v : T) (err : error Err) (next : bool) :
  @send_result T _ Err Ctx v err = EvSend (result_of (v, err, next)).
Proof. destruct err; reflexivity. Qed.

Lemma result_of_Error (v : T) (err : error Err) (next : bool) :
  Error (result_of (v, err, next)) = err.
Proof. destruct err; reflexivity. Qed.

Lemma result_of_one_active (v : T) (err : error Err) (next : bool) :
  one_active v (result_of (v, err, next)).
Proof. destruct err; reflexivity. Qed.

Lemma delivered_app (a b : list ev) :
  delivered (a ++ b) = delivered a ++ delivered b.
Proof.
  induction a as [|e a IH]; [reflexivity|].
  destruct e; simpl; rewrite IH; reflexivity.
Qed.

Lemma calls_app (a b : list ev) : calls (a ++ b) = calls a + calls b.
Proof.
  induction a as [|e a IH]; [reflexivity|].
  destruct e; simpl; rewrite IH; reflexivity.
Qed.

Lemma delivered_iterations (ctx : Ctx) (outs : list (T * error Err * bool)) :
  delivered (flat_map (iteration ctx) outs) = map (@result_of T _ Err) outs.
Proof.
  induction outs as [|[[v err] next] outs IH]; [reflexivity|].
  simpl. rewrite (send_result_is_send v err next). simpl. now rewrite IH.
Qed.

Lemma calls_iterations (ctx : Ctx) (outs : list (T * error Err * bool)) :
  calls (flat_map (iteration ctx) outs) = List.length outs.
Proof.
  induction outs as [|[[v err] next] outs IH]; [reflexivity|].
  simpl. rewrite (send_result_is_send v err next). simpl. now rewrite IH.
Qed.

Lemma defer_close_fst (b : run T Err Ctx) :
  fst (defer_close b) =
  fst b ++ match snd b with
           | Exited => [EvClose]
           | Crashed => [EvClose; EvPanic]
           | Running => []
           end.
Proof.
  unfold defer_close. destruct b as [tr []]; simpl; auto using app_nil_r.
Qed.

Lemma defer_close_snd (b : run T Err Ctx) : snd (defer_close b) = snd b.
Proof. unfold defer_close. destruct b as [tr []]; reflexivity. Qed.

(** *** The loop of [Stream] *)

Lemma returns_in_turn_app (ctx : Ctx) (step : step_t) :
  forall a b s s',
    returns_in_turn ctx step s (a ++ b) s' ->
    exists s1, returns_in_turn ctx step s a s1 /\ returns_in_turn ctx step s1 b s'.
Proof.
  induction a as [|o a IH]; intros b s s' H.
  - exists s. split; [constructor | exact H].
  - simpl in H. inversion H as [|? v err next s2' ? ? Hstep Hrest]; subst.
    destruct (IH _ _ _ Hrest) as [s2 [Ha Hb]].
    exists s2. split; [econstructor; eauto | exact Hb].
Qed.

(** As long as [step] returns and asks to go on, the loop executes one
    iteration after the other and goes on from what [step] left. *)
Lemma Stream_loop_prefix (ctx : Ctx) (step : step_t) :
  forall outs s s1,
    returns_in_turn ctx step s outs s1 ->
    Forall (fun o => continue_flag o = true) outs ->
    forall k,
      Stream_loop (List.length outs + k) ctx step s =
      (flat_map (iteration ctx) outs ++ fst (Stream_loop k ctx step s1),
       snd (Stream_loop k ctx step s1)).
Proof.
  intros outs s s1 H. induction H as [s|s v err next s2 outs s' Hstep Hrest IH];
    intros Hgo k.
  - simpl. now destruct (Stream_loop k ctx step s).
  - inversion Hgo as [|o l Hnext Hgo']; subst.
    unfold continue_flag in Hnext; simpl in Hnext; subst next.
    simpl. rewrite Hstep. simpl. rewrite (IH Hgo' k). reflexivity.
Qed.

Lemma Stream_prefix (ctx : Ctx) (step : step_t) (outs : list (T * error Err * bool))
    (s s1 : St) (k : nat) :
  returns_in_turn ctx step s outs s1 ->
  Forall (fun o => continue_flag o = true) outs ->
  Stream (List.length outs + k) ctx step s =
  (flat_map (iteration ctx) outs ++ fst (Stream k ctx step s1),
   snd (Stream k ctx step s1)).
Proof.
  intros H Hgo. unfold Stream.
  rewrite (Stream_loop_prefix H Hgo k).
  apply injective_projections.
  - rewrite !defer_close_fst. simpl. now rewrite app_assoc.
  - rewrite !defer_close_snd. reflexivity.
Qed.

Lemma Stream_shape (ctx : Ctx) (step : step_t) :
  forall fuel s,
    stream_shape ctx (fst (Stream fuel ctx step s)) (snd (Stream fuel ctx step s)).
Proof.
  unfold Stream.
  induction fuel as [|fuel IH]; intros s.
  - simpl. constructor.
  - simpl. destruct (step ctx s) as [[[[v err] next] s']| | |].
    + rewrite (send_result_is_send v err next).
      destruct next; simpl.
      * specialize (IH s'). revert IH.
        unfold defer_close; simpl.
        destruct (Stream_loop fuel ctx step s') as [tr []]; simpl;
          intros IH; constructor; exact IH.
      * constructor.
    + simpl. constructor.
    + simpl. constructor.
    + simpl. constructor.
Qed.

(** *** The system of [Do] *)

Lemma Do_spawn (ctx : Ctx) (action : Ctx -> outcome (T * error Err))
    (v : T) (err : error Err) :
  action ctx = Returns (v, err) ->
  spawn conduit_cap (Do ctx action) = Do_state ctx (result_of (v, err, false)) 0 0.
Proof.
  intros H. unfold Do, Do_body. rewrite H.
  rewrite (send_result_is_send v err false). reflexivity.
Qed.

Lemma Do_state_step (ctx : Ctx) (x : _Result T Err) (n m : nat) (t : turn) :
  exists n' m', sys_step (Do_state ctx x n m) t = Do_state ctx x n' m'.
Proof.
  destruct n as [|[|[|n]]], t; unfold sys_step; simpl.
  - now exists 1, 0.
  - now exists 0, 0.
  - now exists 1, 0.
  - now exists 2, 0.
  - now exists 3, 0.
  - now exists 2, 0.
  - now exists 3, m.
  - exists 3, (S m). simpl. now rewrite (repeat_cons m None).
Qed.

Lemma Do_state_run (ctx : Ctx) (x : _Result T Err) :
  forall sched n m,
  exists n' m', sys_run sched (Do_state ctx x n m) = Do_state ctx x n' m'.
Proof.
  induction sched as [|t sched IH]; intros n m.
  - now exists n, m.
  - destruct (Do_state_step ctx x n m t) as [n1 [m1 E]].
    simpl. unfold sys_run in IH. rewrite E. apply IH.
Qed.

Lemma Do_state_got (ctx : Ctx) (x : _Result T Err) (n m : nat) :
  got (Do_state ctx x n m) = [] \/
  exists k, got (Do_state ctx x n m) = Some x :: repeat None k.
Proof.
  destruct n as [|[|[|n]]]; simpl; auto.
  - right. now exists 0.
  - right. now exists m.
Qed.

Lemma Do_run_got (ctx : Ctx) (action : Ctx -> outcome (T * error Err))
    (v : T) (err : error Err) (sched : list turn) :
  action ctx = Returns (v, err) ->
  got (sys_run sched (spawn conduit_cap (Do ctx action))) = [] \/
  exists k, got (sys_run sched (spawn conduit_cap (Do ctx action))) =
            Some (result_of (v, err, false)) :: repeat None k.
Proof.
  intros Hret. rewrite (Do_spawn ctx action Hret).
  destruct (Do_state_run ctx (result_of (v, err, false)) sched 0 0) as [n [m R]].
  rewrite R. apply Do_state_got.
Qed.

(** Without a turn of the reader the goroutine gets to its send and
    stays there. *)
Lemma Do_state_reader_absent (ctx : Ctx) (x : _Result T Err) :
  forall sched n,
    reader_absent sched = true -> n <= 1 ->
    sys_run sched (Do_state ctx x n 0) =
    Do_state ctx x (match sched with [] => n | _ => 1 end) 0.
Proof.
  induction sched as [|t sched IH]; intros n Habs Hn; [reflexivity|].
  destruct t; [|discriminate Habs].
  simpl in Habs. unfold sys_run in *. simpl.
  assert (E : sys_step (Do_state ctx x n 0) Producer = Do_state ctx x 1 0).
  { destruct n as [|[|n]]; [reflexivity | reflexivity | lia]. }
  rewrite E, (IH 1 Habs (le_n 1)). now destruct sched.
Qed.

(** *** Do *)

(** C1: when the action returns a value [v] with a nil error, the goroutine
    of [Do] calls the action once, sends exactly one Result, which has a nil
    [Error] and [v] as its [Value], and then closes the conduit, after which
    it has ended. Under every schedule the reader gets nothing, or that one
    Result followed only by the answers of the closed conduit; with a read
    between the send and the close the goroutine finishes and the conduit is
    closed. *)
Theorem Do_success_once_then_closed (ctx : Ctx)
    (action : Ctx -> outcome (T * error Err)) (v : T) :
  action ctx = Returns (v, None) ->
  Do ctx action =
    ([EvCall ctx; EvSend {| Value := v; Error := None |}; EvClose], Exited)
  /\ delivered (fst (Do ctx action)) = [success v]
  /\ calls (fst (Do ctx action)) = 1
  /\ (forall sched,
        let sys := sys_run sched (spawn conduit_cap (Do ctx action)) in
        got sys = [] \/ exists k, got sys = Some (success v) :: repeat None k)
  /\ (let sys := sys_run [Producer; Consumer; Producer]
                         (spawn conduit_cap (Do ctx action)) in
      finished sys = true /\ closed (r sys) = true /\ got sys = [Some (success v)]).
Proof.
  intros Hret.
  assert (E : Do ctx action =
              ([EvCall ctx; EvSend {| Value := v; Error := None |}; EvClose], Exited)).
  { unfold Do, Do_body. now rewrite Hret. }
  split; [exact E|]. rewrite E. repeat split.
  - intros sched. rewrite <- E. exact (Do_run_got ctx action sched Hret).
Qed.

(** C4: when the action returns a non-nil error, whatever value it returns
    with it, the goroutine of [Do] sends exactly one Result, which carries
    that error and the zero value of [T], and then closes the conduit. The
    reader gets nothing, or that one Result followed only by the answers of
    the closed conduit. *)
Theorem Do_failure_once_zero_then_closed (ctx : Ctx)
    (action : Ctx -> outcome (T * error Err)) (v : T) (e : Err) :
  action ctx = Returns (v, Some e) ->
  Do ctx action =
    ([EvCall ctx; EvSend {| Value := zero_value; Error := Some e |}; EvClose],
     Exited)
  /\ delivered (fst (Do ctx action)) = [fail (Some e)]
  /\ Value (fail (T := T) (Some e)) = zero_value
  /\ (forall sched,
        let sys := sys_run sched (spawn conduit_cap (Do ctx action)) in
        got sys = [] \/ exists k, got sys = Some (fail (Some e)) :: repeat None k)
  /\ (let sys := sys_run [Producer; Consumer; Producer]
                         (spawn conduit_cap (Do ctx action)) in
      finished sys = true /\ closed (r sys) = true /\
      got sys = [Some (fail (Some e))]).
Proof.
  intros Hret.
  assert (E : Do ctx action =
              ([EvCall ctx; EvSend {| Value := zero_value; Error := Some e |}; EvClose],
               Exited)).
  { unfold Do, Do_body. now rewrite Hret. }
  split; [exact E|]. rewrite E. repeat split.
  - intros sched. rewrite <- E. exact (Do_run_got ctx action sched Hret).
Qed.

(** C9: when the action returns and the reader never reads, the goroutine
    of [Do] never ends: under every schedule without a turn of the reader the
    conduit is not closed, nothing was received, and the send is still to be
    executed; after its first turn the goroutine stands at the send and
    cannot move. The conduit has capacity 0: a channel with one slot would
    let the same goroutine finish without a reader, and one read lets it
    finish on the conduit as it is. *)
Theorem Do_blocks_without_reader (ctx : Ctx)
    (action : Ctx -> outcome (T * error Err)) (v : T) (err : error Err)
    (sched : list turn) :
  action ctx = Returns (v, err) ->
  reader_absent sched = true ->
  (let sys := sys_run sched (spawn conduit_cap (Do ctx action)) in
   finished sys = false
   /\ closed (r sys) = false
   /\ got sys = []
   /\ In (send_result v err) (todo sys)
   /\ (sched <> [] ->
       todo sys = [send_result v err; EvClose] /\ producer_step sys = None))
  /\ cap (r (spawn conduit_cap (Do ctx action))) = 0
  /\ finished (sys_run [Producer; Producer; Producer]
                 (spawn 1 (Do ctx action))) = true
  /\ finished (sys_run [Producer; Consumer; Producer]
                 (spawn conduit_cap (Do ctx action))) = true.
Proof.
  intros Hret Habs.
  rewrite (Do_spawn ctx action Hret).
  rewrite (Do_state_reader_absent ctx _ sched Habs (le_0_n 1)).
  rewrite (send_result_is_send v err false).
  split; [|split; [reflexivity|split]].
  - destruct sched as [|t sched]; cbv zeta; simpl.
    + do 3 (split; [reflexivity|]).
      split; [right; left; reflexivity|].
      intros C. now contradiction C.
    + do 3 (split; [reflexivity|]).
      split; [left; reflexivity|].
      intros _. split; reflexivity.
  - unfold Do, Do_body. rewrite Hret.
    rewrite (send_result_is_send v err false). reflexivity.
  - reflexivity.
Qed.

(** *** Stream *)

Lemma Stream_loop_head (ctx : Ctx) (step : step_t) (fuel : nat) (s : St) :
  exists rest, fst (Stream_loop (S fuel) ctx step s) = EvCall ctx :: rest.
Proof.
  simpl. destruct (step ctx s) as [[[[v err] next] s']| | |]; simpl; eauto.
  destruct next; simpl; eauto.
Qed.

Lemma Stream_last_iteration (ctx : Ctx) (step : step_t) (fuel : nat) (s : St)
    (v : T) (err : error Err) (s' : St) :
  step ctx s = Returns (v, err, false, s') ->
  Stream (S fuel) ctx step s =
  ([EvCall ctx; EvSend (result_of (v, err, false)); EvTest false; EvClose], Exited).
Proof.
  intros H. unfold Stream. simpl. rewrite H. simpl.
  now rewrite (send_result_is_send v err false).
Qed.

(** C2: when the calls of [step] return n tuples in turn, the flag
    [continue] being true in all but the last and false in the last, the
    goroutine of [Stream], given the time for n iterations, executes exactly
    the n iterations in order and then the close: it sends n Results, the
    i-th made from the i-th value and error ([Error] is the i-th error, and
    with a nil error [Value] is the i-th value, otherwise the zero value),
    calls [step] n times and no more, and has ended. *)
Theorem Stream_delivers_in_order_then_closes (ctx : Ctx) (step : step_t)
    (s s' : St) (outs : list (T * error Err * bool)) (last : T * error Err * bool)
    (fuel : nat) :
  returns_in_turn ctx step s (outs ++ [last]) s' ->
  Forall (fun o => continue_flag o = true) outs ->
  continue_flag last = false ->
  List.length outs < fuel ->
  Stream fuel ctx step s =
    (flat_map (iteration ctx) (outs ++ [last]) ++ [EvClose], Exited)
  /\ delivered (fst (Stream fuel ctx step s)) = map result_of (outs ++ [last])
  /\ calls (fst (Stream fuel ctx step s)) = List.length (outs ++ [last])
  /\ Forall (fun o => Error (result_of o) = snd (fst o) /\
                      one_active (fst (fst o)) (result_of o)) (outs ++ [last]).
Proof.
  intros Hret Hgo Hstop Hfuel.
  destruct (returns_in_turn_app _ _ Hret) as [s1 [Hpre Hlast]].
  inversion Hlast as [|? v err next s2 ? ? Hstep Hnil]; subst.
  unfold continue_flag in Hstop; simpl in Hstop; subst next.
  assert (E : Stream fuel ctx step s =
              (flat_map (iteration ctx) (outs ++ [(v, err, false)]) ++ [EvClose],
               Exited)).
  { replace fuel with (List.length outs + S (fuel - S (List.length outs))) by lia.
    rewrite (Stream_prefix _ Hpre Hgo).
    rewrite Stream_last_iteration with (1 := Hstep).
    rewrite flat_map_app. simpl.
    rewrite (send_result_is_send v err false), <- app_assoc. reflexivity. }
  split; [exact E|]. rewrite E. simpl. split; [|split].
  - rewrite delivered_app, delivered_iterations. simpl. apply app_nil_r.
  - rewrite calls_app, calls_iterations. simpl. lia.
  - apply Forall_forall. intros [[v0 err0] next0] _. simpl. split.
    + apply (result_of_Error v0 err0 next0).
    + apply (result_of_one_active v0 err0 next0).
Qed.

(** C3: in an iteration of the loop of [Stream] that is reached, whatever
    error [step] reports, the Result is sent, the flag is tested, and what
    follows depends on the flag alone: with [continue] true the next
    statement is another call of [step], also after an iteration that was
    sent as a failure, and with [continue] false it is the close. *)
Theorem Stream_continue_alone_decides (ctx : Ctx) (step : step_t) (s s1 s2 : St)
    (outs : list (T * error Err * bool)) (v : T) (err : error Err) (next : bool)
    (fuel : nat) :
  returns_in_turn ctx step s outs s1 ->
  Forall (fun o => continue_flag o = true) outs ->
  step ctx s1 = Returns (v, err, next, s2) ->
  List.length outs + 1 < fuel ->
  Error (result_of (v, err, next)) = err
  /\ exists rest,
      fst (Stream fuel ctx step s) =
      flat_map (iteration ctx) outs ++
      [EvCall ctx; EvSend (result_of (v, err, next)); EvTest next] ++
      (if next then EvCall ctx :: rest else [EvClose]).
Proof.
  intros Hpre Hgo Hstep Hfuel.
  split; [apply (result_of_Error v err next)|].
  replace fuel with (List.length outs + S (S (fuel - S (S (List.length outs)))))
    by lia.
  rewrite (Stream_prefix _ Hpre Hgo). simpl fst.
  destruct next.
  - unfold Stream. rewrite defer_close_fst.
    remember (fuel - S (S (List.length outs))) as k.
    change (Stream_loop (S (S k)) ctx step s1)
      with (match step ctx s1 with
            | Returns (result, err, next, s') =>
                if negb next
                then ([EvCall ctx; send_result result err; EvTest next], Exited)
                else (EvCall ctx :: send_result result err :: EvTest next
                        :: fst (Stream_loop (S k) ctx step s'),
                      snd (Stream_loop (S k) ctx step s'))
            | Panics => ([EvCall ctx], Crashed)
            | Diverges => ([EvCall ctx], Running)
            | Goexits => ([EvCall ctx], Exited)
            end).
    rewrite Hstep. cbn [negb fst snd].
    destruct (Stream_loop_head ctx step k s2) as [rest Hrest].
    rewrite Hrest, (send_result_is_send v err true).
    eexists. simpl. reflexivity.
  - rewrite Stream_last_iteration with (1 := Hstep). exists []. reflexivity.
Qed.

Lemma stream_shape_head (ctx : Ctx) (tr : list ev) (st : status) :
  stream_shape ctx tr st -> tr = [] \/ exists rest, tr = EvCall ctx :: rest.
Proof. intros H; destruct H; eauto. Qed.

Lemma stream_shape_test (ctx : Ctx) (tr : list ev) (st : status) :
  stream_shape ctx tr st ->
  forall pre next post,
    tr = pre ++ EvTest next :: post ->
    (exists pre' x, pre = pre' ++ [EvCall ctx; EvSend x])
    /\ (next = false -> post = [EvClose] /\ st = Exited)
    /\ (next = true -> post = [] \/ exists rest, post = EvCall ctx :: rest).
Proof.
  induction 1 as [|x|x tr st Hshape IH| | |]; intros pre next post E.
  - destruct pre; discriminate E.
  - destruct pre as [|a [|b [|c [|d pre]]]]; try discriminate E.
    + injection E as <- <- <- <-. split; [|split].
      * now exists [], x.
      * auto.
      * discriminate.
    + destruct pre; discriminate E.
  - destruct pre as [|a [|b [|c pre]]]; try discriminate E.
    + injection E as <- <- <- <-. split; [|split].
      * now exists [], x.
      * discriminate.
      * intros _. eapply stream_shape_head, Hshape.
    + injection E as <- <- <- E.
      destruct (IH _ _ _ E) as [[pre' [y Hpre]] [Hstop Hgo]].
      split; [|split; assumption].
      exists (EvCall ctx :: EvSend x :: EvTest true :: pre'), y.
      now rewrite Hpre.
  - destruct pre as [|a [|b [|c pre]]]; try discriminate E.
    destruct pre; discriminate E.
  - destruct pre as [|a pre]; try discriminate E.
    destruct pre; discriminate E.
  - destruct pre as [|a [|b pre]]; try discriminate E.
    destruct pre; discriminate E.
Qed.

Lemma stream_shape_ctx (ctx : Ctx) (tr : list ev) (st : status) :
  stream_shape ctx tr st -> forall c, In (EvCall c) tr -> c = ctx.
Proof.
  induction 1 as [|x|x tr st Hshape IH| | |]; simpl; intros c Hin.
  - contradiction.
  - destruct Hin as [E|[E|[E|[E|[]]]]]; congruence.
  - destruct Hin as [E|[E|[E|Hin]]]; try congruence. now apply IH.
  - destruct Hin as [E|[E|[E|[]]]]; congruence.
  - destruct Hin as [E|[]]; congruence.
  - destruct Hin as [E|[E|[]]]; congruence.
Qed.

(** C5: in every run of the goroutine of [Stream], each test of the flag
    comes directly after a call of [step] and the send of a Result, in this
    order; after a test of a false flag there is the close and nothing else,
    and the goroutine has ended; after a test of a true flag there is
    nothing yet or another call. In particular an iteration in which [step]
    returns [continue] false runs as call, send of its Result, test, close. *)
Theorem Stream_sends_before_testing (fuel : nat) (ctx : Ctx) (step : step_t) (s : St) :
  (forall pre next post,
      fst (Stream fuel ctx step s) = pre ++ EvTest next :: post ->
      (exists pre' x, pre = pre' ++ [EvCall ctx; EvSend x])
      /\ (next = false -> post = [EvClose] /\ snd (Stream fuel ctx step s) = Exited)
      /\ (next = true -> post = [] \/ exists rest, post = EvCall ctx :: rest))
  /\ (forall outs s1 v err s2,
        returns_in_turn ctx step s outs s1 ->
        Forall (fun o => continue_flag o = true) outs ->
        step ctx s1 = Returns (v, err, false, s2) ->
        List.length outs < fuel ->
        Stream fuel ctx step s =
        (flat_map (iteration ctx) outs ++
         [EvCall ctx; EvSend (result_of (v, err, false)); EvTest false; EvClose],
         Exited)).
Proof.
  split.
  - intros pre next post E.
    eapply stream_shape_test; [apply Stream_shape | exact E].
  - intros outs s1 v err s2 Hpre Hgo Hstep Hfuel.
    replace fuel with (List.length outs + S (fuel - S (List.length outs))) by lia.
    rewrite (Stream_prefix _ Hpre Hgo).
    rewrite Stream_last_iteration with (1 := Hstep). reflexivity.
Qed.

(** *** The Results that are sent *)

Lemma Stream_loop_sends (ctx : Ctx) (step : step_t) :
  forall fuel s x,
    In (EvSend x) (fst (Stream_loop fuel ctx step s)) ->
    exists s1 v err next s2,
      step ctx s1 = Returns (v, err, next, s2) /\ x = result_of (v, err, next).
Proof.
  induction fuel as [|fuel IH]; intros s x Hin; [contradiction|].
  simpl in Hin. destruct (step ctx s) as [[[[v err] next] s']| | |] eqn:Hstep.
  - rewrite (send_result_is_send v err next) in Hin.
    assert (Hx : x = result_of (v, err, next) \/
                 In (EvSend x) (fst (Stream_loop fuel ctx step s'))).
    { destruct next; simpl in Hin.
      - destruct Hin as [E|[E|[E|Hin]]]; try discriminate E; [|now right].
        left. injection E as <-. reflexivity.
      - destruct Hin as [E|[E|[E|[]]]]; try discriminate E.
        left. injection E as <-. reflexivity. }
    destruct Hx as [Hx|Hx]; [|eapply IH, Hx].
    now exists s, v, err, next, s'.
  - destruct Hin as [E|[]]; discriminate E.
  - destruct Hin as [E|[]]; discriminate E.
  - destruct Hin as [E|[]]; discriminate E.
Qed.

Lemma defer_close_sends (b : run T Err Ctx) (x : _Result T Err) :
  In (EvSend x) (fst (defer_close b)) -> In (EvSend x) (fst b).
Proof.
  rewrite defer_close_fst. intros Hin.
  apply in_app_or in Hin. destruct Hin as [Hin|Hin]; [exact Hin|].
  destruct (snd b); simpl in Hin; intuition discriminate.
Qed.

(** C6: a Result made by [success] has a nil [Error] and the given value
    as [Value]; a Result made by [fail] from a non-nil error has that error
    as [Error] and the zero value of [T] as [Value]; and every Result that
    the goroutine of [Do] or of [Stream] sends was made from a pair that the
    user function returned, has the error of that pair as [Error], and as
    [Value] the value of the pair when the error is nil and the zero value
    when it is not. *)
Theorem Result_one_field_active :
  (forall val : T,
      Error (success (Err := Err) val) = None /\ Value (success (Err := Err) val) = val
      /\ one_active val (success (Err := Err) val))
  /\ (forall (e : Err) (val : T),
        Error (fail (T := T) (Some e)) = Some e
        /\ Value (fail (T := T) (Some e)) = zero_value
        /\ one_active val (fail (Some e)))
  /\ (forall (ctx : Ctx) (action : Ctx -> outcome (T * error Err)) x,
        In (EvSend x) (fst (Do ctx action)) ->
        exists v err,
          action ctx = Returns (v, err) /\ Error x = err /\ one_active v x)
  /\ (forall fuel (ctx : Ctx) (step : step_t) s x,
        In (EvSend x) (fst (Stream fuel ctx step s)) ->
        exists s1 v err next s2,
          step ctx s1 = Returns (v, err, next, s2) /\
          Error x = err /\ one_active v x).
Proof.
  split; [|split; [|split]].
  - intros val. repeat split.
  - intros e val. repeat split.
  - intros ctx action x Hin. apply defer_close_sends in Hin.
    unfold Do_body in Hin.
    destruct (action ctx) as [[v err]| | |] eqn:Hact; simpl in Hin.
    + rewrite (send_result_is_send v err false) in Hin.
      destruct Hin as [E|[E|[]]]; [discriminate E|].
      injection E as <-. exists v, err. split; [reflexivity|]. split.
      * apply (result_of_Error v err false).
      * apply (result_of_one_active v err false).
    + destruct Hin as [E|[]]; discriminate E.
    + destruct Hin as [E|[]]; discriminate E.
    + destruct Hin as [E|[]]; discriminate E.
  - intros fuel ctx step s x Hin. apply defer_close_sends in Hin.
    apply Stream_loop_sends in Hin.
    destruct Hin as (s1 & v & err & next & s2 & Hst & ->).
    exists s1, v, err, next, s2. split; [exact Hst|]. split.
    + apply (result_of_Error v err next).
    + apply (result_of_one_active v err next).
Qed.

(** *** A user function that panics *)

Lemma Do_panic_state_step (ctx : Ctx) (n m : nat) (t : turn) :
  exists n' m',
    sys_step (Do_panic_state (T := T) (Err := Err) ctx n m) t =
    Do_panic_state ctx n' m'.
Proof.
  destruct n as [|[|[|n]]], t; unfold sys_step; simpl.
  - now exists 1, 0.
  - now exists 0, 0.
  - now exists 2, 0.
  - now exists 1, 0.
  - now exists 3, m.
  - exists 2, (S m). simpl. now rewrite (repeat_cons m None).
  - now exists (S (S (S n))), m.
  - now exists (S (S (S n))), m.
Qed.

Lemma Do_panic_state_run (ctx : Ctx) :
  forall sched n m,
  exists n' m',
    sys_run sched (Do_panic_state (T := T) (Err := Err) ctx n m) =
    Do_panic_state ctx n' m'.
Proof.
  induction sched as [|t sched IH]; intros n m.
  - now exists n, m.
  - destruct (Do_panic_state_step ctx n m t) as [n1 [m1 E]].
    simpl. unfold sys_run in IH. rewrite E. apply IH.
Qed.

Lemma Do_panic_state_got (ctx : Ctx) (n m : nat) :
  Forall (fun g => g = None)
         (got (Do_panic_state (T := T) (Err := Err) ctx n m)).
Proof.
  destruct n as [|[|[|n]]]; simpl; try constructor;
    apply Forall_forall; intros g Hg; now apply repeat_spec in Hg.
Qed.

(** C7, as the code has it: a panic of the user function is not recovered
    and no Result stands for it, but the deferred [close] is executed while
    the panic unwinds the goroutine, before the panic leaves it. For [Do] the
    goroutine calls the action, closes the conduit and dies; under every
    schedule the reader gets no Result, a read after the close gets the
    answer of the closed conduit, and the process is dead after the third
    turn of the goroutine. For [Stream] the Results of the iterations before
    the panic are sent, then the conduit is closed and the goroutine dies. *)
Theorem panic_not_recovered_close_still_runs :
  (forall (ctx : Ctx) (action : Ctx -> outcome (T * error Err)),
      action ctx = Panics ->
      Do ctx action = ([EvCall ctx; EvClose; EvPanic], Crashed)
      /\ delivered (fst (Do ctx action)) = []
      /\ (forall sched,
            Forall (fun g => g = None)
                   (got (sys_run sched (spawn conduit_cap (Do ctx action)))))
      /\ got (sys_run [Producer; Producer; Consumer]
                      (spawn conduit_cap (Do ctx action))) = [None]
      /\ dead (sys_run [Producer; Producer; Producer]
                       (spawn conduit_cap (Do ctx action))) = true)
  /\ (forall fuel (ctx : Ctx) (step : step_t) s outs s1,
        returns_in_turn ctx step s outs s1 ->
        Forall (fun o => continue_flag o = true) outs ->
        step ctx s1 = Panics ->
        List.length outs < fuel ->
        Stream fuel ctx step s =
          (flat_map (iteration ctx) outs ++ [EvCall ctx; EvClose; EvPanic], Crashed)
        /\ delivered (fst (Stream fuel ctx step s)) = map result_of outs).
Proof.
  split.
  - intros ctx action Hact.
    assert (E : Do ctx action = ([EvCall ctx; EvClose; EvPanic], Crashed)).
    { unfold Do, Do_body. now rewrite Hact. }
    rewrite E. repeat split.
    intros sched.
    destruct (Do_panic_state_run ctx sched 0 0) as [n [m R]].
    change (spawn conduit_cap ([EvCall ctx; EvClose; EvPanic], Crashed))
      with (Do_panic_state (T := T) (Err := Err) ctx 0 0).
    rewrite R. apply Do_panic_state_got.
  - intros fuel ctx step s outs s1 Hpre Hgo Hstep Hfuel.
    assert (E : Stream fuel ctx step s =
                (flat_map (iteration ctx) outs ++ [EvCall ctx; EvClose; EvPanic],
                 Crashed)).
    { replace fuel with (List.length outs + S (fuel - S (List.length outs))) by lia.
      rewrite (Stream_prefix _ Hpre Hgo).
      unfold Stream. simpl. rewrite Hstep. reflexivity. }
    rewrite E. split; [reflexivity|]. simpl.
    rewrite delivered_app, delivered_iterations. simpl. apply app_nil_r.
Qed.

(** *** The context *)

Lemma conduit_ops_defer_close (b : run T Err Ctx) :
  conduit_ops (fst (defer_close b)) =
  conduit_ops (fst b) ++ match snd b with
                         | Exited => [EvClose]
                         | Crashed => [EvClose; EvPanic]
                         | Running => []
                         end.
Proof.
  rewrite defer_close_fst. unfold conduit_ops. rewrite filter_app.
  now destruct (snd b).
Qed.

Lemma Stream_loop_same_returns (ctx1 ctx2 : Ctx) (step1 step2 : step_t) :
  forall fuel s1 s2,
    call_log fuel ctx1 step1 s1 = call_log fuel ctx2 step2 s2 ->
    conduit_ops (fst (Stream_loop fuel ctx1 step1 s1)) =
    conduit_ops (fst (Stream_loop fuel ctx2 step2 s2))
    /\ snd (Stream_loop fuel ctx1 step1 s1) = snd (Stream_loop fuel ctx2 step2 s2).
Proof.
  induction fuel as [|fuel IH]; intros s1 s2 Hlog; [now split|].
  simpl in *.
  destruct (step1 ctx1 s1) as [[[[v1 e1] n1] s1']| | |];
    destruct (step2 ctx2 s2) as [[[[v2 e2] n2] s2']| | |];
    try discriminate Hlog; [|now split|now split|now split].
  injection Hlog as -> -> -> Hlog.
  rewrite !(send_result_is_send v2 e2 n2).
  destruct n2; simpl in *; [|now split].
  destruct (IH _ _ Hlog) as [Hops Hst].
  now rewrite Hops, Hst.
Qed.

(** C8: the context is only handed to the user function. Two runs of [Do]
    whose action calls end the same way, and two runs of [Stream] whose calls
    of [step] end the same way call by call, do the same to the conduit,
    the same sends in the same order and the same close, and get as far,
    whatever the two contexts are; and every call of the user function
    receives the context that [Do] or [Stream] was given. *)
Theorem context_only_passed_through :
  (forall (ctx1 ctx2 : Ctx) (action1 action2 : Ctx -> outcome (T * error Err)),
      action1 ctx1 = action2 ctx2 ->
      conduit_ops (fst (Do ctx1 action1)) = conduit_ops (fst (Do ctx2 action2))
      /\ snd (Do ctx1 action1) = snd (Do ctx2 action2))
  /\ (forall fuel (ctx1 ctx2 : Ctx) (step1 step2 : step_t) s1 s2,
        call_log fuel ctx1 step1 s1 = call_log fuel ctx2 step2 s2 ->
        conduit_ops (fst (Stream fuel ctx1 step1 s1)) =
        conduit_ops (fst (Stream fuel ctx2 step2 s2))
        /\ snd (Stream fuel ctx1 step1 s1) = snd (Stream fuel ctx2 step2 s2))
  /\ (forall (ctx : Ctx) (action : Ctx -> outcome (T * error Err)) c,
        In (EvCall c) (fst (Do ctx action)) -> c = ctx)
  /\ (forall fuel (ctx : Ctx) (step : step_t) s c,
        In (EvCall c) (fst (Stream fuel ctx step s)) -> c = ctx).
Proof.
  split; [|split; [|split]].
  - intros ctx1 ctx2 action1 action2 H. unfold Do, Do_body. rewrite H.
    destruct (action2 ctx2) as [[v err]| | |]; simpl.
    + rewrite !(send_result_is_send v err false). now split.
    + now split.
    + now split.
    + now split.
  - intros fuel ctx1 ctx2 step1 step2 s1 s2 H. unfold Stream.
    destruct (Stream_loop_same_returns _ _ _ _ _ _ _ H) as [Hops Hst].
    rewrite !conduit_ops_defer_close, !defer_close_snd, Hops, Hst. now split.
  - intros ctx action c. unfold Do, Do_body.
    destruct (action ctx) as [[v err]| | |]; simpl.
    + rewrite (send_result_is_send v err false).
      intros [E|[E|[E|[]]]]; congruence.
    + intros [E|[E|[E|[]]]]; congruence.
    + intros [E|[]]; congruence.
    + intros [E|[E|[]]]; congruence.
  - intros fuel ctx step s c. eapply stream_shape_ctx, Stream_shape.
Qed.

(** *** The first iteration *)

(** C10, as the code has it: the goroutine of [Stream] starts with a call
    of [step], whatever [step] is; and when that first call returns, the
    send of its Result and the test of the flag come next, so that a Result
    has been sent before the flag is examined and before the conduit can
    close: the run sends at least one Result, and a close in it stands after
    the call, the send and the test of the first iteration. *)
Theorem Stream_first_iteration (fuel : nat) (ctx : Ctx) (step : step_t) (s : St) :
  (exists rest, fst (Stream (S fuel) ctx step s) = EvCall ctx :: rest)
  /\ (forall v err next s',
        step ctx s = Returns (v, err, next, s') ->
        (exists rest,
            fst (Stream (S fuel) ctx step s) =
            EvCall ctx :: EvSend (result_of (v, err, next)) :: EvTest next :: rest)
        /\ hd_error (delivered (fst (Stream (S fuel) ctx step s))) =
           Some (result_of (v, err, next))
        /\ (forall pre post,
              fst (Stream (S fuel) ctx step s) = pre ++ EvClose :: post ->
              exists pre',
                pre = EvCall ctx :: EvSend (result_of (v, err, next))
                        :: EvTest next :: pre')).
Proof.
  split.
  - unfold Stream. rewrite defer_close_fst.
    destruct (Stream_loop_head ctx step fuel s) as [rest ->].
    eexists. reflexivity.
  - intros v err next s' Hstep.
    assert (H : exists rest,
               fst (Stream (S fuel) ctx step s) =
               EvCall ctx :: EvSend (result_of (v, err, next)) :: EvTest next :: rest).
    { unfold Stream. rewrite defer_close_fst. simpl. rewrite Hstep.
      rewrite (send_result_is_send v err next).
      destruct next; cbn [negb fst snd app]; eexists; reflexivity. }
    destruct H as [rest E]. rewrite E.
    split; [now exists rest|]. split; [reflexivity|].
    intros pre post Hsplit.
    destruct pre as [|a [|b [|c pre]]]; try discriminate Hsplit.
    injection Hsplit as <- <- <- _. now exists pre.
Qed.

(** *** More on the runs of [Stream] *)

Lemma closes_app (a b : list ev) : closes (a ++ b) = closes a || closes b.
Proof. apply existsb_app. Qed.

Lemma defer_close_running (b : run T Err Ctx) :
  snd b = Running -> defer_close b = b.
Proof. unfold defer_close. now intros ->. Qed.

Lemma Stream_loop_going (ctx : Ctx) (step : step_t) (P : St -> Prop) :
  (forall s, P s -> exists v err s', step ctx s = Returns (v, err, true, s') /\ P s') ->
  forall fuel s,
    P s ->
    snd (Stream_loop fuel ctx step s) = Running
    /\ closes (fst (Stream_loop fuel ctx step s)) = false
    /\ calls (fst (Stream_loop fuel ctx step s)) = fuel
    /\ List.length (delivered (fst (Stream_loop fuel ctx step s))) = fuel.
Proof.
  intros Hstep. induction fuel as [|fuel IH]; intros s Hs; [now repeat split|].
  destruct (Hstep s Hs) as (v & err & s' & E & Hs').
  destruct (IH s' Hs') as (Hst & Hcl & Hca & Hde).
  simpl. rewrite E. cbn [negb fst snd].
  rewrite (send_result_is_send v err true). simpl.
  repeat split; auto.
Qed.

(** While [step] returns and asks to go on, the goroutine of [Stream]
    does not end: however long it is observed, it is running, it has not
    closed the conduit, and it has made one call and sent one Result per
    iteration. *)
Theorem Stream_never_closes_while_continuing (ctx : Ctx) (step : step_t)
    (P : St -> Prop) (fuel : nat) (s : St) :
  (forall s, P s -> exists v err s', step ctx s = Returns (v, err, true, s') /\ P s') ->
  P s ->
  snd (Stream fuel ctx step s) = Running
  /\ closes (fst (Stream fuel ctx step s)) = false
  /\ calls (fst (Stream fuel ctx step s)) = fuel
  /\ List.length (delivered (fst (Stream fuel ctx step s))) = fuel.
Proof.
  intros Hstep Hs.
  destruct (@Stream_loop_going ctx step P Hstep fuel s Hs) as (Hst & H).
  unfold Stream. rewrite (defer_close_running _ Hst). now split.
Qed.

Lemma stream_shape_counts (ctx : Ctx) (tr : list ev) (st : status) :
  stream_shape ctx tr st ->
  List.length (delivered tr) <= calls tr <= S (List.length (delivered tr))
  /\ (st = Crashed -> calls tr = S (List.length (delivered tr)))
  /\ (st = Exited -> 1 <= calls tr).
Proof.
  induction 1 as [|x|x tr st Hshape IH| | |]; simpl.
  - repeat split; first [lia | discriminate].
  - repeat split; first [lia | discriminate | intros _; lia].
  - destruct IH as (Hb & Hc & He). repeat split; try lia.
    intros E. specialize (Hc E). lia.
  - repeat split; first [lia | discriminate | intros _; lia].
  - repeat split; first [lia | discriminate].
  - repeat split; first [lia | discriminate | intros _; lia].
Qed.

Lemma Stream_loop_log (ctx : Ctx) (step : step_t) :
  forall fuel s,
    calls (fst (Stream_loop fuel ctx step s)) =
      List.length (call_log fuel ctx step s)
    /\ delivered (fst (Stream_loop fuel ctx step s)) =
       returned_Results (call_log fuel ctx step s).
Proof.
  induction fuel as [|fuel IH]; intros s; [now split|].
  simpl. destruct (step ctx s) as [[[[v err] next] s']| | |]; try (now split).
  rewrite (send_result_is_send v err next).
  destruct next; simpl; [|now split].
  destruct (IH s') as [Hc Hd]. now rewrite Hc, Hd.
Qed.

(** In every run of the goroutine of [Stream] each call of [step] that
    returned has given exactly one Result and a call that did not return
    has given none: the calls made are those of the log, and the Results
    sent are, in order, those of the calls that returned. So the Results
    never outnumber the calls and the calls are at most one more than the
    Results; a goroutine that died of a panic has made exactly one call more
    than it sent Results, and one that is gone has made at least one call. *)
Theorem Stream_one_Result_per_returned_call (fuel : nat) (ctx : Ctx)
    (step : step_t) (s : St) :
  calls (fst (Stream fuel ctx step s)) = List.length (call_log fuel ctx step s)
  /\ delivered (fst (Stream fuel ctx step s)) =
     returned_Results (call_log fuel ctx step s)
  /\ List.length (delivered (fst (Stream fuel ctx step s))) <=
       calls (fst (Stream fuel ctx step s)) <=
       S (List.length (delivered (fst (Stream fuel ctx step s))))
  /\ (snd (Stream fuel ctx step s) = Crashed ->
      calls (fst (Stream fuel ctx step s)) =
      S (List.length (delivered (fst (Stream fuel ctx step s)))))
  /\ (snd (Stream fuel ctx step s) = Exited ->
      1 <= calls (fst (Stream fuel ctx step s))).
Proof.
  destruct (Stream_loop_log ctx step fuel s) as [Hc Hd].
  split; [|split].
  - unfold Stream. rewrite defer_close_fst, calls_app, Hc.
    destruct (snd (Stream_loop fuel ctx step s)); simpl; lia.
  - unfold Stream. rewrite defer_close_fst, delivered_app, Hd.
    destruct (snd (Stream_loop fuel ctx step s)); simpl; apply app_nil_r.
  - eapply stream_shape_counts, Stream_shape.
Qed.

Lemma stream_shape_close (ctx : Ctx) (tr : list ev) (st : status) :
  stream_shape ctx tr st ->
  closes tr = match st with Running => false | _ => true end
  /\ forall pre post,
      tr = pre ++ EvClose :: post ->
      closes pre = false /\ (post = [] \/ post = [EvPanic]).
Proof.
  induction 1 as [|x|x tr st Hshape [IHc IHd]| | |]; (split; [try reflexivity|]).
  - intros pre post E. destruct pre; discriminate E.
  - intros pre post E.
    destruct pre as [|a [|b [|c [|d pre]]]]; try discriminate E.
    + injection E as <- <- <- <-. now split; [|left].
    + destruct pre; discriminate E.
  - exact IHc.
  - intros pre post E.
    destruct pre as [|a [|b [|c pre]]]; try discriminate E.
    injection E as <- <- <- E. destruct (IHd _ _ E) as [Hpre Hpost].
    now split.
  - intros pre post E.
    destruct pre as [|a [|b [|c pre]]]; try discriminate E.
    + injection E as <- <-. now split; [|right].
    + destruct pre; discriminate E.
  - intros pre post E. destruct pre as [|a pre]; try discriminate E.
    destruct pre; discriminate E.
  - intros pre post E.
    destruct pre as [|a [|b pre]]; try discriminate E.
    + injection E as <- <-. now split; [|left].
    + destruct pre; discriminate E.
Qed.

(** The goroutine of [Stream] executes the close exactly when it leaves
    its loop, by the flag, by a panic or by [runtime.Goexit], and never
    while it is running; the
    close is executed once, nothing was closed before it, and after it
    nothing is called, sent or tested: only the panic, if there is one,
    follows. *)
Theorem Stream_closes_once_and_last (fuel : nat) (ctx : Ctx) (step : step_t)
    (s : St) :
  closes (fst (Stream fuel ctx step s)) =
    match snd (Stream fuel ctx step s) with Running => false | _ => true end
  /\ forall pre post,
      fst (Stream fuel ctx step s) = pre ++ EvClose :: post ->
      closes pre = false /\ (post = [] \/ post = [EvPanic]).
Proof. eapply stream_shape_close, Stream_shape. Qed.

(** The iterations of [Stream] follow one another: after iterations in
    which [step] returned and asked to go on, the run goes on as the run of
    [Stream] started with what [step] left. The Results so far come first,
    the calls add up, and the goroutine gets as far as the rest does. *)
Theorem Stream_resumes_from_state (ctx : Ctx) (step : step_t) (s s1 : St)
    (outs : list (T * error Err * bool)) (k : nat) :
  returns_in_turn ctx step s outs s1 ->
  Forall (fun o => continue_flag o = true) outs ->
  delivered (fst (Stream (List.length outs + k) ctx step s)) =
    map result_of outs ++ delivered (fst (Stream k ctx step s1))
  /\ calls (fst (Stream (List.length outs + k) ctx step s)) =
     List.length outs + calls (fst (Stream k ctx step s1))
  /\ snd (Stream (List.length outs + k) ctx step s) = snd (Stream k ctx step s1).
Proof.
  intros Hpre Hgo. rewrite (Stream_prefix _ Hpre Hgo). simpl.
  rewrite delivered_app, delivered_iterations, calls_app, calls_iterations.
  now repeat split.
Qed.

(** *** The goroutine on its conduit, under every schedule *)

Lemma received_app (a b : list (option (_Result T Err))) :
  received (a ++ b) = received a ++ received b.
Proof.
  induction a as [|[x|] a IH]; simpl; [reflexivity | now rewrite IH | exact IH].
Qed.

Lemma after_close_slack (k : list ev) : after_close k = true -> slack k = 1.
Proof. destruct k as [|[] [|]]; simpl; intros H; try discriminate H; reflexivity. Qed.

Lemma after_close_quiet (k : list ev) :
  after_close k = true -> delivered k = [] /\ calls k = 0 /\ closes k = false.
Proof.
  destruct k as [|[] [|]]; simpl; intros H; try discriminate H; now repeat split.
Qed.

Lemma follows_spawn (g : run T Err Ctx) :
  close_last (fst g) = true ->
  call_then_send (fst g) = true ->
  follows g [] (spawn conduit_cap g).
Proof.
  intros Ho Hp. constructor; simpl; auto.
  - lia.
  - discriminate.
Qed.

Ltac follows_field :=
  simpl; auto; try discriminate;
  try (now rewrite <- app_assoc);
  try (rewrite delivered_app; simpl; now rewrite app_nil_r);
  try (rewrite closes_app; simpl; now rewrite ?orb_false_r, ?orb_true_r);
  try (rewrite calls_app, delivered_app; simpl; rewrite app_nil_r; simpl in *; lia).

Lemma follows_step (g : run T Err Ctx) (pre : list ev) (sys : system T Err Ctx)
    (t : turn) :
  follows g pre sys -> exists pre', follows g pre' (sys_step sys t).
Proof.
  destruct sys as [k e [c b cl] gt d].
  intros [Hsplit Hgot Hbuf Hcap Hclosed Horder Hnone Hcalls Hpairs Hdead Hends].
  simpl in *. subst b c. unfold sys_step. simpl.
  destruct d.
  { exists pre. constructor; simpl; auto. }
  destruct t; unfold producer_step, consumer_step; simpl.
  - destruct k as [|[c0|x|n| |] k].
    + exists pre. constructor; simpl; auto.
    + destruct cl; [discriminate Horder|].
      exists (pre ++ [EvCall c0]). constructor; follows_field.
      * rewrite calls_app, delivered_app. simpl. rewrite app_nil_r.
        destruct k as [|[] k]; simpl in *; try discriminate Hpairs; lia.
      * destruct k as [|[] k]; simpl in *; try discriminate Hpairs; auto.
    + destruct cl; [discriminate Horder|].
      unfold conduit_cap. simpl.
      exists pre. constructor; simpl; auto.
    + destruct cl; [discriminate Horder|].
      exists (pre ++ [EvTest n]). constructor; follows_field.
    + destruct cl; [discriminate Horder|].
      exists (pre ++ [EvClose]). constructor; follows_field.
      rewrite calls_app, delivered_app. simpl. rewrite app_nil_r.
      rewrite (after_close_slack k Horder). simpl in Hcalls. lia.
    + destruct cl; [|discriminate Horder].
      destruct k; [|discriminate Horder].
      exists (pre ++ [EvPanic]). constructor; follows_field.
      intros _. split; [|reflexivity]. apply in_or_app. right. now left.
  - destruct cl.
    + exists pre. constructor; follows_field.
      rewrite received_app. simpl. now rewrite app_nil_r.
    + destruct k as [|[c0|x|n| |] k]; try (exists pre; constructor; simpl; auto; fail).
      exists (pre ++ [EvSend x]). constructor; follows_field.
      * rewrite received_app, delivered_app. simpl. now rewrite Hgot.
      * intros Hin. apply in_app_or in Hin. destruct Hin as [Hin|[Hin|[]]].
        -- now apply Hnone.
        -- discriminate Hin.
      * rewrite calls_app, delivered_app, length_app. simpl. simpl in Hcalls. lia.
Qed.

Lemma follows_run (g : run T Err Ctx) :
  forall sched pre sys,
    follows g pre sys -> exists pre', follows g pre' (sys_run sched sys).
Proof.
  induction sched as [|t sched IH]; intros pre sys H.
  - now exists pre.
  - destruct (follows_step t H) as [pre1 H1]. apply (IH _ _ H1).
Qed.

Lemma stream_shape_ordered (ctx : Ctx) (tr : list ev) (st : status) :
  stream_shape ctx tr st -> close_last tr = true /\ call_then_send tr = true.
Proof. induction 1 as [|x|x tr st Hshape [IHo IHp]| | |]; simpl; auto. Qed.

Lemma Stream_follows (fuel : nat) (ctx : Ctx) (step : step_t) (s : St)
    (sched : list turn) :
  exists pre,
    follows (Stream fuel ctx step s) pre
            (sys_run sched (spawn conduit_cap (Stream fuel ctx step s))).
Proof.
  destruct (stream_shape_ordered (Stream_shape ctx step fuel s)) as [Ho Hp].
  apply (follows_run sched (follows_spawn _ Ho Hp)).
Qed.

Lemma Do_follows (ctx : Ctx) (action : Ctx -> outcome (T * error Err))
    (sched : list turn) :
  exists pre,
    follows (Do ctx action) pre (sys_run sched (spawn conduit_cap (Do ctx action))).
Proof.
  apply (@follows_run _ sched []). apply follows_spawn;
    unfold Do, Do_body; destruct (action ctx) as [[v err]| | |];
    try rewrite (send_result_is_send v err false); reflexivity.
Qed.

Lemma slack_le_1 (k : list ev) : slack k <= 1.
Proof. destruct k as [|[] k]; simpl; lia. Qed.

Lemma follows_conservation (g : run T Err Ctx) (pre : list ev)
    (sys : system T Err Ctx) :
  follows g pre sys ->
  received (got sys) ++ delivered (todo sys) = delivered (fst g).
Proof.
  intros H. now rewrite (fo_split H), delivered_app, (fo_got H).
Qed.

Lemma follows_closed (g : run T Err Ctx) (pre : list ev) (sys : system T Err Ctx) :
  follows g pre sys ->
  closed (r sys) = true ->
  closes (fst g) = true /\ delivered (todo sys) = [].
Proof.
  intros H Hc. pose proof (fo_order H) as Ho. rewrite Hc in Ho.
  split.
  - rewrite (fo_split H), closes_app, <- (fo_closed H), Hc. reflexivity.
  - apply (after_close_quiet _ Ho).
Qed.

Lemma follows_open (g : run T Err Ctx) (pre : list ev) (sys : system T Err Ctx) :
  follows g pre sys ->
  closes (fst g) = false ->
  snd g = Running ->
  closed (r sys) = false /\ ~ In None (got sys) /\ finished sys = false.
Proof.
  intros H Hcl Hst.
  assert (Hc : closed (r sys) = false).
  { destruct (closed (r sys)) eqn:E; [|reflexivity].
    destruct (follows_closed H E) as [C _]. congruence. }
  split; [exact Hc|]. split.
  - intros Hin. pose proof (fo_none H Hin). congruence.
  - assert (Hd : dead sys = false).
    { destruct (dead sys) eqn:E; [|reflexivity].
      destruct (fo_dead H E) as [_ C]. congruence. }
    pose proof (fo_ends H Hd) as He. unfold finished.
    rewrite He, Hst. now destruct (todo sys).
Qed.

Lemma got_only_Results (g : list (option (_Result T Err))) :
  ~ In None g -> g = map Some (received g).
Proof.
  induction g as [|[x|] g IH]; simpl; intros H.
  - reflexivity.
  - f_equal. apply IH. intros C. apply H. now right.
  - exfalso. apply H. now left.
Qed.

Lemma producer_keeps_got (sys : system T Err Ctx) :
  got (sys_step sys Producer) = got sys.
Proof.
  unfold sys_step, producer_step.
  destruct (dead sys); [reflexivity|].
  destruct (todo sys) as [|[] k]; try reflexivity;
    destruct (closed (r sys)); try reflexivity.
  now destruct (List.length (buf (r sys)) <? cap (r sys)).
Qed.

Lemma reader_absent_got :
  forall sched (sys : system T Err Ctx),
    reader_absent sched = true -> got (sys_run sched sys) = got sys.
Proof.
  induction sched as [|t sched IH]; intros sys Habs; [reflexivity|].
  destruct t; [|discriminate Habs].
  change (sys_run (Producer :: sched) sys)
    with (sys_run sched (sys_step sys Producer)).
  simpl in Habs. rewrite (IH _ Habs).
  apply producer_keeps_got.
Qed.

Lemma stream_shape_panic (ctx : Ctx) (tr : list ev) (st : status) :
  stream_shape ctx tr st -> In EvPanic tr -> st = Crashed.
Proof.
  induction 1 as [|x|x tr st Hshape IH| | |]; simpl; intros Hin.
  - contradiction.
  - destruct Hin as [E|[E|[E|[E|[]]]]]; discriminate E.
  - destruct Hin as [E|[E|[E|Hin]]]; try discriminate E. now apply IH.
  - reflexivity.
  - destruct Hin as [E|[]]; discriminate E.
  - destruct Hin as [E|[E|[]]]; discriminate E.
Qed.

Lemma Stream_loop_crashed (ctx : Ctx) (step : step_t) :
  forall fuel s,
    snd (Stream_loop fuel ctx step s) = Crashed ->
    exists s1, step ctx s1 = Panics.
Proof.
  induction fuel as [|fuel IH]; intros s H; [discriminate H|].
  simpl in H. destruct (step ctx s) as [[[[v err] next] s']| | |] eqn:E.
  - destruct next; simpl in H; [now apply (IH s') | discriminate H].
  - now exists s.
  - discriminate H.
  - discriminate H.
Qed.

(** The goroutines of [Do] and of [Stream] never bring the process down
    by themselves: they do not send on the closed conduit and do not close
    it twice. Under every schedule the process is dead only when a call of
    the user function panicked. *)
Theorem process_dies_only_of_user_panic :
  (forall (ctx : Ctx) (action : Ctx -> outcome (T * error Err)) sched,
      dead (sys_run sched (spawn conduit_cap (Do ctx action))) = true ->
      action ctx = Panics)
  /\ (forall fuel (ctx : Ctx) (step : step_t) s sched,
        dead (sys_run sched (spawn conduit_cap (Stream fuel ctx step s))) = true ->
        snd (Stream fuel ctx step s) = Crashed /\ exists s1, step ctx s1 = Panics).
Proof.
  split.
  - intros ctx action sched Hd.
    destruct (Do_follows ctx action sched) as [pre H].
    destruct (fo_dead H Hd) as [Hin _].
    assert (Hin' : In EvPanic (fst (Do ctx action))).
    { rewrite (fo_split H). apply in_or_app. now left. }
    revert Hin'. unfold Do, Do_body.
    destruct (action ctx) as [[v err]| | |]; simpl.
    + rewrite (send_result_is_send v err false).
      intros [E|[E|[E|[]]]]; discriminate E.
    + reflexivity.
    + intros [E|[]]; discriminate E.
    + intros [E|[E|[]]]; discriminate E.
  - intros fuel ctx step s sched Hd.
    destruct (Stream_follows fuel ctx step s sched) as [pre H].
    destruct (fo_dead H Hd) as [Hin _].
    assert (Hc : snd (Stream fuel ctx step s) = Crashed).
    { apply (stream_shape_panic (Stream_shape ctx step fuel s)).
      rewrite (fo_split H). apply in_or_app. now left. }
    split; [exact Hc|].
    unfold Stream in Hc. rewrite defer_close_snd in Hc.
    apply (Stream_loop_crashed _ _ _ _ Hc).
Qed.

(** Under every schedule the reader of a [Stream] has received a prefix
    of the Results that the goroutine sends, in their order: what it has
    received, followed by what is still to be sent, is what the run sends,
    nothing lost and nothing twice. When a receive has answered that the
    conduit is closed, the reader has received all of them and the
    goroutine has executed its close. *)
Theorem Stream_reader_gets_Results_in_order (fuel : nat) (ctx : Ctx)
    (step : step_t) (s : St) (sched : list turn) :
  let sys := sys_run sched (spawn conduit_cap (Stream fuel ctx step s)) in
  received (got sys) ++ delivered (todo sys) =
    delivered (fst (Stream fuel ctx step s))
  /\ (In None (got sys) ->
      received (got sys) = delivered (fst (Stream fuel ctx step s))
      /\ closes (fst (Stream fuel ctx step s)) = true).
Proof.
  cbv zeta. destruct (Stream_follows fuel ctx step s sched) as [pre H].
  pose proof (follows_conservation H) as Hc.
  split; [exact Hc|]. intros Hin.
  destruct (follows_closed H (fo_none H Hin)) as [Hcl Hd].
  split; [|exact Hcl]. rewrite Hd, app_nil_r in Hc. exact Hc.
Qed.

(** [Stream] does not run ahead of its reader: under every schedule the
    calls of [step] made so far are at most one more than the Results the
    reader has received. Without a turn of the reader nothing is received
    and at most one call of [step] is made. *)
Theorem Stream_at_most_one_call_ahead (fuel : nat) (ctx : Ctx) (step : step_t)
    (s : St) (sched : list turn) :
  let sys := sys_run sched (spawn conduit_cap (Stream fuel ctx step s)) in
  calls (fst (Stream fuel ctx step s)) <=
    calls (todo sys) + S (List.length (received (got sys)))
  /\ (reader_absent sched = true ->
      got sys = [] /\
      calls (fst (Stream fuel ctx step s)) <= S (calls (todo sys))).
Proof.
  cbv zeta. destruct (Stream_follows fuel ctx step s sched) as [pre H].
  assert (Hb : calls (fst (Stream fuel ctx step s)) <=
               calls (todo (sys_run sched (spawn conduit_cap (Stream fuel ctx step s))))
               + S (List.length
                      (received (got (sys_run sched
                                        (spawn conduit_cap (Stream fuel ctx step s))))))).
  { rewrite (fo_split H) at 1. rewrite calls_app, (fo_got H).
    pose proof (fo_calls H). pose proof (slack_le_1 (todo (sys_run sched
      (spawn conduit_cap (Stream fuel ctx step s))))). lia. }
  split; [exact Hb|]. intros Habs.
  rewrite (reader_absent_got _ _ Habs) in Hb |- *. simpl in Hb |- *.
  split; [reflexivity | lia].
Qed.

Lemma closes_iterations (ctx : Ctx) (outs : list (T * error Err * bool)) :
  closes (flat_map (iteration ctx) outs) = false.
Proof.
  induction outs as [|[[v err] next] outs IH]; [reflexivity|].
  simpl. rewrite (send_result_is_send v err next). exact IH.
Qed.

(** A call of the user function that never returns leaves the conduit
    open for ever. With such an action the reader of a [Do] receives
    nothing under any schedule, the conduit is never closed and the
    goroutine never ends. With a [step] that stops returning, the reader of
    a [Stream] receives at most the Results of the iterations before, never
    the answer of a closed conduit, and the goroutine never ends. *)
Theorem call_that_never_returns_leaves_conduit_open :
  (forall (ctx : Ctx) (action : Ctx -> outcome (T * error Err)) sched,
      action ctx = Diverges ->
      let sys := sys_run sched (spawn conduit_cap (Do ctx action)) in
      got sys = [] /\ closed (r sys) = false /\ finished sys = false)
  /\ (forall fuel (ctx : Ctx) (step : step_t) s outs s1 sched,
        returns_in_turn ctx step s outs s1 ->
        Forall (fun o => continue_flag o = true) outs ->
        step ctx s1 = Diverges ->
        List.length outs < fuel ->
        let sys := sys_run sched (spawn conduit_cap (Stream fuel ctx step s)) in
        Stream fuel ctx step s =
          (flat_map (iteration ctx) outs ++ [EvCall ctx], Running)
        /\ closed (r sys) = false
        /\ ~ In None (got sys)
        /\ finished sys = false
        /\ exists rest, received (got sys) ++ rest = map result_of outs).
Proof.
  split.
  - intros ctx action sched Hact. cbv zeta.
    destruct (Do_follows ctx action sched) as [pre H].
    assert (E : Do ctx action = ([EvCall ctx], Running)).
    { unfold Do, Do_body. now rewrite Hact. }
    assert (Hcl : closes (fst (Do ctx action)) = false) by now rewrite E.
    assert (Hst : snd (Do ctx action) = Running) by now rewrite E.
    destruct (follows_open H Hcl Hst) as (Hc & Hn & Hf).
    split; [|now split].
    assert (Hde : delivered (fst (Do ctx action)) = []) by now rewrite E.
    rewrite (got_only_Results _ Hn).
    pose proof (follows_conservation H) as Hcons. rewrite Hde in Hcons.
    apply app_eq_nil in Hcons. destruct Hcons as [-> _]. reflexivity.
  - intros fuel ctx step s outs s1 sched Hpre Hgo Hstep Hfuel. cbv zeta.
    destruct (Stream_follows fuel ctx step s sched) as [pre H].
    assert (E : Stream fuel ctx step s =
                (flat_map (iteration ctx) outs ++ [EvCall ctx], Running)).
    { replace fuel with (List.length outs + S (fuel - S (List.length outs))) by lia.
      rewrite (Stream_prefix _ Hpre Hgo).
      unfold Stream. simpl. rewrite Hstep. reflexivity. }
    assert (Hcl : closes (fst (Stream fuel ctx step s)) = false).
    { rewrite E. simpl. rewrite closes_app, closes_iterations. reflexivity. }
    assert (Hst : snd (Stream fuel ctx step s) = Running) by now rewrite E.
    destruct (follows_open H Hcl Hst) as (Hc & Hn & Hf).
    split; [exact E|]. repeat (split; [assumption|]).
    assert (Hde : delivered (fst (Stream fuel ctx step s)) = map result_of outs).
    { rewrite E. simpl. rewrite delivered_app, delivered_iterations.
      simpl. apply app_nil_r. }
    exists (delivered (todo (sys_run sched (spawn conduit_cap (Stream fuel ctx step s))))).
    now rewrite (follows_conservation H).
Qed.

Lemma drain_one (ctx : Ctx) (x : _Result T Err) (n : bool) (k : list ev)
    (e : status) (g : list (option (_Result T Err))) :
  sys_run [Producer; Consumer; Producer]
    {| todo := EvCall ctx :: EvSend x :: EvTest n :: k; ends := e;
       r := make_chan conduit_cap; got := g; dead := false |} =
  {| todo := k; ends := e; r := make_chan conduit_cap; got := g ++ [Some x];
     dead := false |}.
Proof. reflexivity. Qed.

Lemma sys_run_app (a b : list turn) (sys : system T Err Ctx) :
  sys_run (a ++ b) sys = sys_run b (sys_run a sys).
Proof. apply fold_left_app. Qed.

Lemma drain_iterations (ctx : Ctx) :
  forall (outs : list (T * error Err * bool)) g rest e,
    sys_run (List.concat (repeat [Producer; Consumer; Producer] (List.length outs)))
      {| todo := flat_map (iteration ctx) outs ++ rest; ends := e;
         r := make_chan conduit_cap; got := g; dead := false |} =
    {| todo := rest; ends := e; r := make_chan conduit_cap;
       got := g ++ map Some (map result_of outs); dead := false |}.
Proof.
  induction outs as [|[[v err] next] outs IH]; intros g rest e.
  - simpl. now rewrite app_nil_r.
  - cbn [List.length repeat List.concat flat_map iteration].
    rewrite sys_run_app, (send_result_is_send v err next).
    cbn [app]. rewrite drain_one, IH. cbn [map].
    now rewrite <- app_assoc.
Qed.

(** A reader that takes every Result gets them all: when the calls of
    [step] return n tuples in turn and only the last has [continue] false,
    then under the schedule in which the reader receives as soon as a
    Result is offered, the reader has received exactly the n Results in
    order, the goroutine has ended, the conduit is closed and the process is
    alive; the next receive answers that the conduit is closed. *)
Theorem Stream_drained_by_reader (ctx : Ctx) (step : step_t)
    (s s' : St) (outs : list (T * error Err * bool)) (last : T * error Err * bool)
    (fuel : nat) :
  returns_in_turn ctx step s (outs ++ [last]) s' ->
  Forall (fun o => continue_flag o = true) outs ->
  continue_flag last = false ->
  List.length outs < fuel ->
  let sys := sys_run (draining (List.length (outs ++ [last])))
                     (spawn conduit_cap (Stream fuel ctx step s)) in
  finished sys = true
  /\ closed (r sys) = true
  /\ dead sys = false
  /\ got sys = map Some (map result_of (outs ++ [last]))
  /\ got (sys_step sys Consumer) = got sys ++ [None].
Proof.
  intros Hret Hgo Hstop Hfuel.
  destruct (returns_in_turn_app _ _ Hret) as [s1 [Hpre Hlast]].
  inversion Hlast as [|? v err next s2 ? ? Hstep Hnil]; subst.
  unfold continue_flag in Hstop; simpl in Hstop; subst next.
  assert (E : Stream fuel ctx step s =
              (flat_map (iteration ctx) (outs ++ [(v, err, false)]) ++ [EvClose],
               Exited)).
  { replace fuel with (List.length outs + S (fuel - S (List.length outs))) by lia.
    rewrite (Stream_prefix _ Hpre Hgo).
    rewrite Stream_last_iteration with (1 := Hstep).
    rewrite flat_map_app. simpl.
    rewrite (send_result_is_send v err false), <- app_assoc. reflexivity. }
  cbv zeta. rewrite E. unfold draining, spawn. cbn [fst snd].
  rewrite sys_run_app, drain_iterations.
  repeat split.
Qed.


End Properties.

(** ** The theorems at the programs of the documentation *)

(** Scenario A: [Do] with an action that returns ["hi"] and no error. *)
Lemma Do_success_once_then_closed_witness :
  say_hi tt = Returns ("hi"%string, None) /\
  Do tt say_hi =
    ([EvCall tt; EvSend {| Value := "hi"%string; Error := None |}; EvClose], Exited).
Proof.
  split; [reflexivity|].
  exact (proj1 (@Do_success_once_then_closed string _ string unit tt say_hi
                  "hi"%string eq_refl)).
Defined.

(** An action that returns 7 with the error ["boom"]: the 7 is dropped. *)
Lemma Do_failure_once_zero_then_closed_witness :
  fails_with_value tt = Returns (7, Some "boom"%string) /\
  Do tt fails_with_value =
    ([EvCall tt; EvSend {| Value := 0; Error := Some "boom"%string |}; EvClose],
     Exited).
Proof.
  split; [reflexivity|].
  exact (proj1 (@Do_failure_once_zero_then_closed nat _ string unit tt
                  fails_with_value 7 "boom"%string eq_refl)).
Defined.

(** Five turns of the goroutine and none of the reader. *)
Lemma Do_blocks_without_reader_witness :
  reader_absent [Producer; Producer; Producer; Producer; Producer] = true /\
  finished (sys_run [Producer; Producer; Producer; Producer; Producer]
              (spawn conduit_cap (Do tt say_hi))) = false.
Proof.
  split; [reflexivity|].
  exact (proj1 (proj1 (@Do_blocks_without_reader string _ string unit tt say_hi
                         "hi"%string None
                         [Producer; Producer; Producer; Producer; Producer]
                         eq_refl eq_refl))).
Defined.

(** Scenario B: the counter that stops at 3. *)
Lemma Stream_delivers_in_order_then_closes_witness :
  returns_in_turn tt count_to_3 0
    ([(1, None, true); (2, None, true)] ++ [(3, None, false)]) 3 /\
  delivered (fst (Stream 5 tt count_to_3 0)) =
    [success 1; success 2; success 3] /\
  calls (fst (Stream 5 tt count_to_3 0)) = 3 /\
  snd (Stream 5 tt count_to_3 0) = Exited.
Proof.
  assert (H : returns_in_turn tt count_to_3 0
                ([(1, None, true); (2, None, true)] ++ [(3, None, false)]) 3).
  { repeat (eapply rit_cons; [reflexivity|]). apply rit_nil. }
  split; [exact H|].
  destruct (@Stream_delivers_in_order_then_closes nat _ string unit nat tt
              count_to_3 0 3 [(1, None, true); (2, None, true)] (3, None, false) 5)
    as [E [Hd [Hc _]]];
    [exact H | repeat constructor | reflexivity | simpl; lia |].
  split; [exact Hd|]. split; [exact Hc|]. now rewrite E.
Defined.

(** Scenario C: the second call reports an error and asks to go on; a
    third call follows. *)
Lemma Stream_continue_alone_decides_witness :
  error_on_second tt 1 = Returns (2, Some "bad"%string, true, 2) /\
  exists rest,
    fst (Stream 5 tt error_on_second 0) =
    [EvCall tt; EvSend (success 1); EvTest true] ++
    [EvCall tt; EvSend (fail (Some "bad"%string)); EvTest true] ++
    EvCall tt :: rest.
Proof.
  split; [reflexivity|].
  apply (@Stream_continue_alone_decides nat _ string unit nat tt
           error_on_second 0 1 2 [(1, None, true)] 2 (Some "bad"%string) true 5).
  - eapply rit_cons; [reflexivity | apply rit_nil].
  - repeat constructor.
  - reflexivity.
  - simpl; lia.
Defined.

(** In the run of the counter the test of the last flag stands between the
    send of 3 and the close. *)
Lemma Stream_sends_before_testing_witness :
  fst (Stream 5 tt count_to_3 0) =
    [EvCall tt; EvSend (success 1); EvTest true;
     EvCall tt; EvSend (success 2); EvTest true;
     EvCall tt; EvSend (success 3)] ++ EvTest false :: [EvClose] /\
  (exists pre' x,
      [EvCall tt; EvSend (success 1); EvTest true;
       EvCall tt; EvSend (success 2); EvTest true;
       EvCall tt; EvSend (success (Err := string) 3)] =
      pre' ++ [EvCall tt; EvSend x]).
Proof.
  split; [reflexivity|].
  apply (proj1 (@Stream_sends_before_testing nat _ string unit nat 5 tt
                  count_to_3 0)
           [EvCall tt; EvSend (success 1); EvTest true;
            EvCall tt; EvSend (success 2); EvTest true;
            EvCall tt; EvSend (success 3)]
           false [EvClose]).
  reflexivity.
Defined.

(** The Result that [Do] sends for the failing action. *)
Lemma Result_one_field_active_witness :
  In (EvSend {| Value := 0; Error := Some "boom"%string |})
     (fst (Do tt fails_with_value)) /\
  exists v err,
    fails_with_value tt = Returns (v, err) /\
    Error {| Value := 0; Error := Some "boom"%string |} = err /\
    one_active v {| Value := 0; Error := Some "boom"%string |}.
Proof.
  assert (H : In (EvSend {| Value := 0; Error := Some "boom"%string |})
                 (fst (Do tt fails_with_value))) by (right; left; reflexivity).
  split; [exact H|].
  exact (proj1 (proj2 (proj2 (@Result_one_field_active nat _ string unit nat)))
           tt fails_with_value _ H).
Defined.

(** C7, the claim as it is written fails: the action panics, and the
    goroutine of [Do] executes [close(r)] all the same; a reader that reads
    after it gets the answer of a closed conduit. *)
Lemma Do_panicking_action_closes :
  panicking_action tt = Panics /\
  fst (Do tt panicking_action) = [EvCall tt; EvClose; EvPanic] /\
  closes (fst (Do tt panicking_action)) = true /\
  closed (r (sys_run [Producer; Producer]
               (spawn conduit_cap (Do tt panicking_action)))) = true /\
  got (sys_run [Producer; Producer; Consumer]
         (spawn conduit_cap (Do tt panicking_action))) = [None].
Proof. repeat split. Qed.

(** A step that panics on its second call: the first Result is sent, then
    the conduit is closed and the goroutine dies. *)
Lemma panic_not_recovered_close_still_runs_witness :
  panics_on_second tt 1 = Panics /\
  Stream 4 tt panics_on_second 0 =
    ([EvCall tt; EvSend (success 1); EvTest true; EvCall tt; EvClose; EvPanic],
     Crashed).
Proof.
  split; [reflexivity|].
  apply (proj2 (@panic_not_recovered_close_still_runs nat _ string unit nat)
           4 tt panics_on_second 0 [(1, None, true)] 1).
  - eapply rit_cons; [reflexivity | apply rit_nil].
  - repeat constructor.
  - reflexivity.
  - simpl; lia.
Defined.

(** A cancelled and a live context, an action and a step that ignore
    them: the conduit sees the same. *)
Lemma context_only_passed_through_witness :
  ignores_ctx true = ignores_ctx false /\
  conduit_ops (fst (Do true ignores_ctx)) = conduit_ops (fst (Do false ignores_ctx)) /\
  call_log 5 true counts_ignoring_ctx 0 = call_log 5 false counts_ignoring_ctx 0 /\
  conduit_ops (fst (Stream 5 true counts_ignoring_ctx 0)) =
  conduit_ops (fst (Stream 5 false counts_ignoring_ctx 0)).
Proof.
  split; [reflexivity|]. split.
  - apply (proj1 (@context_only_passed_through nat _ string bool nat)
             true false ignores_ctx ignores_ctx eq_refl).
  - split; [reflexivity|].
    apply (proj1 (proj2 (@context_only_passed_through nat _ string bool nat))
             5 true false counts_ignoring_ctx counts_ignoring_ctx 0 0 eq_refl).
Defined.

(** C10, the claim as it is written fails: a step that panics on its first
    call is called once, no Result is sent, and the conduit is closed. *)
Lemma Stream_panicking_step_closes_empty :
  panicking_step tt 0 = Panics /\
  fst (Stream 3 tt panicking_step 0) = [EvCall tt; EvClose; EvPanic] /\
  closes (fst (Stream 3 tt panicking_step 0)) = true /\
  delivered (fst (Stream 3 tt panicking_step 0)) = [].
Proof. repeat split. Qed.

(** The counter: its first call returns, so the run starts with the call,
    the send of 1 and the test, and 1 is the first Result sent. *)
Lemma Stream_first_iteration_witness :
  count_to_3 tt 0 = Returns (1, None, true, 1) /\
  (exists rest,
      fst (Stream 3 tt count_to_3 0) =
      EvCall tt :: EvSend (success 1) :: EvTest true :: rest) /\
  hd_error (delivered (fst (Stream 3 tt count_to_3 0))) = Some (success 1).
Proof.
  split; [reflexivity|].
  destruct (proj2 (@Stream_first_iteration nat _ string unit nat 2 tt
                     count_to_3 0)
              1 None true 1 eq_refl) as (H1 & H2 & _).
  split; [exact H1 | exact H2].
Defined.

(** A step that ends its goroutine on its first call: the deferred close
    runs, nothing is sent, and the goroutine is gone without a panic. *)
Lemma Stream_goexit_step_closes_empty :
  Stream 3 tt goexit_step 0 = ([EvCall tt; EvClose], Exited) /\
  dead (sys_run [Producer; Producer; Consumer]
          (spawn conduit_cap (Stream 3 tt goexit_step 0))) = false /\
  got (sys_run [Producer; Producer; Consumer]
         (spawn conduit_cap (Stream 3 tt goexit_step 0))) = [None].
Proof. repeat split. Qed.

(** The step that never asks to stop, observed for four iterations. *)
Lemma Stream_never_closes_while_continuing_witness :
  (forall s : nat, True ->
     exists v err s', counts_forever tt s = Returns (v, err, true, s') /\ True) /\
  snd (Stream 4 tt counts_forever 0) = Running /\
  closes (fst (Stream 4 tt counts_forever 0)) = false /\
  calls (fst (Stream 4 tt counts_forever 0)) = 4.
Proof.
  assert (H : forall s : nat, True ->
                exists v err s', counts_forever tt s = Returns (v, err, true, s') /\ True).
  { intros s _. exists (S s), None, (S s). now split. }
  split; [exact H|].
  destruct (@Stream_never_closes_while_continuing nat _ string unit nat tt
              counts_forever (fun _ => True) 4 0 H I) as (Hs & Hc & Hn & _).
  now repeat split.
Defined.

(** The counter after its first iteration goes on as the counter started
    at 1. *)
Lemma Stream_resumes_from_state_witness :
  returns_in_turn tt count_to_3 0 [(1, None, true)] 1 /\
  delivered (fst (Stream 5 tt count_to_3 0)) =
    [success 1] ++ delivered (fst (Stream 4 tt count_to_3 1)).
Proof.
  assert (H : returns_in_turn tt count_to_3 0 [(1, None, true)] 1).
  { eapply rit_cons; [reflexivity | apply rit_nil]. }
  split; [exact H|].
  apply (@Stream_resumes_from_state nat _ string unit nat tt count_to_3 0 1
           [(1, None, true)] 4 H).
  repeat constructor.
Defined.

(** A step that returns once and then hangs: the reader gets the first
    Result and no close. *)
Lemma call_that_never_returns_leaves_conduit_open_witness :
  hangs_on_second tt 1 = Diverges /\
  closed (r (sys_run [Producer; Consumer; Producer; Producer; Consumer; Consumer]
               (spawn conduit_cap (Stream 5 tt hangs_on_second 0)))) = false /\
  finished (sys_run [Producer; Consumer; Producer; Producer; Consumer; Consumer]
              (spawn conduit_cap (Stream 5 tt hangs_on_second 0))) = false.
Proof.
  split; [reflexivity|].
  destruct (proj2 (@call_that_never_returns_leaves_conduit_open nat _ string unit nat)
              5 tt hangs_on_second 0 [(1, None, true)] 1
              [Producer; Consumer; Producer; Producer; Consumer; Consumer])
    as (_ & Hc & _ & Hf & _).
  - eapply rit_cons; [reflexivity | apply rit_nil].
  - repeat constructor.
  - reflexivity.
  - simpl; lia.
  - now split.
Defined.

(** The counter that stops at 3, with a reader that takes every Result. *)
Lemma Stream_drained_by_reader_witness :
  returns_in_turn tt count_to_3 0
    ([(1, None, true); (2, None, true)] ++ [(3, None, false)]) 3 /\
  got (sys_run (draining 3) (spawn conduit_cap (Stream 5 tt count_to_3 0))) =
    [Some (success 1); Some (success 2); Some (success 3)] /\
  finished (sys_run (draining 3) (spawn conduit_cap (Stream 5 tt count_to_3 0))) = true.
Proof.
  assert (H : returns_in_turn tt count_to_3 0
                ([(1, None, true); (2, None, true)] ++ [(3, None, false)]) 3).
  { repeat (eapply rit_cons; [reflexivity|]). apply rit_nil. }
  split; [exact H|].
  destruct (@Stream_drained_by_reader nat _ string unit nat tt count_to_3 0 3
              [(1, None, true); (2, None, true)] (3, None, false) 5)
    as (Hf & _ & _ & Hg & _);
    [exact H | repeat constructor | reflexivity | simpl; lia |].
  split; [exact Hg | exact Hf].
Defined.
